(** * kinesis2sse: the timestamp index, the ingestion pipeline and the service

    A shallow embedding of [internal/kinesis2sse] (timestamp2offset.go,
    record_processor.go, service.go) and the properties its design document
    states about it.

    Conventions.
    - Go's [int] is 64 bits wide on the supported platforms.  Offsets and
      capacities are modelled as [Z]; the only arithmetic the code performs on
      them is [offset-1] and [offset - m.capacity] after [offset < 0] has been
      rejected, which cannot wrap for a positive capacity.
    - A [time.Time] is modelled by the instant it denotes, a [Z] (a count of
      time units since the epoch).  The code only ever compares times with
      [Time.Compare], which looks at the instant alone.
    - Libraries the repository imports but does not contain (the B-tree of
      modernc.org/b, memlog, encoding/json, net/http, the KCL worker) are
      modelled by their documented contracts, each marked as such. *)

From stdpp Require Import gmap strings list fin_maps sorting.
From Stdlib Require Import ZArith Lia Sorted.

Local Open Scope Z_scope.

(** ** time.Time *)

Definition Time := Z.

(** [Time.Compare]: -1, 0 or +1. *)
Definition time_Compare (a b : Time) : Z :=
  if a <? b then -1 else if b <? a then 1 else 0.

(** [cmp.Compare] on [int]. *)
Definition cmp_Compare (a b : Z) : Z :=
  if a <? b then -1 else if b <? a then 1 else 0.

(** ** timestamp2offset.go *)

Record timestamp2OffsetsKey := mkKey {
  timestamp : Time;
  offset : Z
}.

Definition timestamp2OffsetsKeyCmp (a b : timestamp2OffsetsKey) : Z :=
  let c := time_Compare (timestamp a) (timestamp b) in
  if c =? 0 then cmp_Compare (offset a) (offset b) else c.

(** *** The ordered tree (modernc.org/b), by its contract

    [b.Tree[K, struct{}]] is an ordered set of keys under the comparison
    function handed to [TreeNew].  It is represented by the list of its keys in
    collation order; [Set], [Delete], [Seek] and the enumerator's [Next] and
    [Prev] follow the library's documentation. *)

Module Tree.

Definition t := list timestamp2OffsetsKey.

Definition TreeNew : t := [].

(** [Set] puts the key at its place in the collation order, overwriting an
    equal key. *)
Fixpoint Set_ (k : timestamp2OffsetsKey) (tr : t) : t :=
  match tr with
  | [] => [k]
  | x :: tr' =>
      let c := timestamp2OffsetsKeyCmp k x in
      if c <? 0 then k :: x :: tr'
      else if c =? 0 then k :: tr'
      else x :: Set_ k tr'
  end.

(** [Delete] removes the item with key [k], if any, and reports whether
    there was one. *)
Fixpoint Delete (k : timestamp2OffsetsKey) (tr : t) : t * bool :=
  match tr with
  | [] => ([], false)
  | x :: tr' =>
      if timestamp2OffsetsKeyCmp k x =? 0 then (tr', true)
      else let '(r, ok) := Delete k tr' in (x :: r, ok)
  end.

(** An enumerator: the tree it walks, the index of the current item
    (possibly one past the last item) and whether [Seek] hit its key. *)
Record Enumerator := mkEnum {
  e_items : t;
  e_i : nat;
  e_hit : bool
}.

Fixpoint seek_index (k : timestamp2OffsetsKey) (tr : t) : nat * bool :=
  match tr with
  | [] => (O, false)
  | x :: tr' =>
      let c := timestamp2OffsetsKeyCmp k x in
      if c <? 0 then (O, false)
      else if c =? 0 then (O, true)
      else let '(i, hit) := seek_index k tr' in (S i, hit)
  end.

(** [Seek] positions the enumerator on the first item whose key is not
    below [k]; the position is one past the last item when there is none. *)
Definition Seek (tr : t) (k : timestamp2OffsetsKey) : Enumerator * bool :=
  let '(i, hit) := seek_index k tr in (mkEnum tr i hit, hit).

(** [Next] returns the current item and moves forward; [None] is [io.EOF]. *)
Definition Next (e : Enumerator) : option timestamp2OffsetsKey * Enumerator :=
  match e_items e !! e_i e with
  | Some k => (Some k, mkEnum (e_items e) (S (e_i e)) true)
  | None => (None, e)
  end.

(** [Prev] returns the current item and moves backward.  After a [Seek]
    that did not hit, the enumerator stands one item too far and [Prev]
    first steps back. *)
Definition Prev (e : Enumerator) : option timestamp2OffsetsKey * Enumerator :=
  if e_hit e then
    match e_items e !! e_i e with
    | Some k => (Some k, mkEnum (e_items e) (Nat.pred (e_i e)) true)
    | None => (None, e)
    end
  else
    match e_i e with
    | O => (None, e)
    | S j =>
        match e_items e !! j with
        | Some k => (Some k, mkEnum (e_items e) (Nat.pred j) true)
        | None => (None, e)
        end
    end.

End Tree.

(** *** Timestamp2Offset *)

Record Timestamp2Offset := mkT2O {
  capacity : Z;
  lastOffset : Z;
  offset2Timestamp : gmap Z Time;
  timestamp2Offsets : Tree.t
}.

(** The error sites of the file, in the order they occur. *)
Inductive T2OError :=
| ErrCapacity                                   (* capacity must be greater than 1 *)
| ErrNegativeOffset                             (* offsets must be non-negative *)
| ErrLastOffset (offset last : Z)               (* cannot add offset %d when last offset was %d *)
| ErrOldOffsetNotFound (oldest : Z)             (* old offset to remove %d not found *)
| ErrOldTimestampNotFound (ts : Time) (oldest : Z). (* timestamp %s for old offset to remove %d not found *)

Definition NewTimestamp2Offset (capacity : Z) : T2OError + Timestamp2Offset :=
  if capacity <=? 0 then inl ErrCapacity
  else inr {| capacity := capacity;
              lastOffset := -1;
              offset2Timestamp := ∅;
              timestamp2Offsets := Tree.TreeNew |}.

Definition NearestOffset (m : Timestamp2Offset) (timestamp : Time) : Z * bool :=
  (* Go forward *)
  let '(e, _) := Tree.Seek (timestamp2Offsets m) (mkKey timestamp 0) in
  match fst (Tree.Next e) with
  | Some k => (offset k, true)
  | None =>
      (* Go backward *)
      let '(e, _) := Tree.Seek (timestamp2Offsets m) (mkKey timestamp 0) in
      match fst (Tree.Prev e) with
      | Some k => (offset k, true)
      | None => (-1, false)
      end
  end.

Definition set_lastOffset (m : Timestamp2Offset) (o : Z) : Timestamp2Offset :=
  {| capacity := capacity m;
     lastOffset := o;
     offset2Timestamp := offset2Timestamp m;
     timestamp2Offsets := timestamp2Offsets m |}.

(** [Add] mutates the receiver; the model returns the receiver as the call
    leaves it, also when the call returns an error. *)
Definition Add (m : Timestamp2Offset) (offset : Z) (timestamp : Time)
  : Timestamp2Offset * option T2OError :=
  if offset <? 0 then (m, Some ErrNegativeOffset)
  else
    let n := Z.of_nat (size (offset2Timestamp m)) in
    let '(m1, err) :=
      if n =? 0 then (set_lastOffset m offset, None)
      else if negb (lastOffset m =? offset - 1)
           then (m, Some (ErrLastOffset offset (lastOffset m)))
           else (m, None) in
    match err with
    | Some e => (m1, Some e)
    | None =>
        let evicted :=
          if n =? capacity m1 then
            let oldestOffset := offset - capacity m1 in
            match offset2Timestamp m1 !! oldestOffset with
            | None => inl (ErrOldOffsetNotFound oldestOffset)
            | Some oldestOffsetTimestamp =>
                let '(tr, ok) :=
                  Tree.Delete (mkKey oldestOffsetTimestamp oldestOffset)
                              (timestamp2Offsets m1) in
                if negb ok
                then inl (ErrOldTimestampNotFound oldestOffsetTimestamp oldestOffset)
                else inr (delete oldestOffset (offset2Timestamp m1), tr)
            end
          else inr (offset2Timestamp m1, timestamp2Offsets m1) in
        match evicted with
        | inl e => (m1, Some e)
        | inr (o2t, tr) =>
            ({| capacity := capacity m1;
                lastOffset := offset;
                offset2Timestamp := <[offset := timestamp]> o2t;
                timestamp2Offsets := Tree.Set_ (mkKey timestamp offset) tr |},
             None)
        end
    end.

(** A sequence of [Add] calls, stopping at the first error. *)
Fixpoint add_all (m : Timestamp2Offset) (calls : list (Z * Time))
  : Timestamp2Offset * option T2OError :=
  match calls with
  | [] => (m, None)
  | (o, ts) :: rest =>
      match Add m o ts with
      | (m', None) => add_all m' rest
      | (m', Some e) => (m', Some e)
      end
  end.

(** The classes of [Add] failure the design document names. *)
Inductive ErrorClass := ValidationError | OutOfOrder | CorruptState.

Definition error_class (e : T2OError) : ErrorClass :=
  match e with
  | ErrCapacity => ValidationError
  | ErrNegativeOffset | ErrLastOffset _ _ => OutOfOrder
  | ErrOldOffsetNotFound _ | ErrOldTimestampNotFound _ _ => CorruptState
  end.


(** ** External collaborators of the pipeline and of the handler *)

Definition bytes := list Byte.byte.

(** encoding/json, as far as record_processor.go uses it: [Unmarshal] into a
    [map[string]any], the type assertion [.(string)] on a decoded value, and
    [Marshal] of a decoded value. *)
Class JSON := {
  any : Type;
  as_string : any -> option string;
  json_Unmarshal : bytes -> option (gmap string any);
  json_Marshal : any -> option bytes
}.

(** The parsers of package time: [time.Parse(time.RFC3339, s)] and
    [time.ParseDuration(s)] (a duration is an [int64] count of nanoseconds). *)
Class TimeFmt := {
  time_Parse : string -> option Time;
  time_ParseDuration : string -> option Z
}.

(** *** memlog, by its contract

    The log hands out offsets 0, 1, 2, ... in write order.  It is represented
    by the records written so far; [Write] may refuse a record (for instance
    one that exceeds the maximum record size), in which case nothing is
    stored and no offset is used up.  [ml_entries] is the history of the
    writes, not what the log still holds: the log keeps its most recent
    segments only (their size is the capacity handed to [memlog.New]), and
    what can still be read back is not part of the model. *)
Record Memlog := mkLog { ml_entries : list bytes }.

Definition memlog_New : Memlog := mkLog [].

Definition memlog_Write (accepts : bytes -> bool) (l : Memlog) (data : bytes)
  : Memlog * option Z :=
  if accepts data
  then (mkLog (ml_entries l ++ [data]), Some (Z.of_nat (length (ml_entries l))))
  else (l, None).

(** [Range] returns the earliest and the latest offset; the latest is -1 for
    an empty log.  Only the latest is used here. *)
Definition memlog_Range_latest (l : Memlog) : Z :=
  Z.of_nat (length (ml_entries l)) - 1.

(** ** record_processor.go *)

Inductive LogMsg :=
| WarnUnparseableJSON        (* Skipping an event due to un-parseable JSON *)
| WarnMissingTime            (* Skipping an event due to missing "time" key *)
| WarnUnparseableTime        (* Skipping an event due to un-parseable "time" key *)
| WarnMissingDetail          (* Skipping an event due to missing "detail" key *)
| ErrorMarshal               (* ... unable to marshal it to JSON *)
| ErrorMemlogWrite           (* ... unable to write it to the memlog *)
| ErrorIncorrectUsage (e : T2OError) (* Incorrect usage of Timestamp2Offset ... Exiting! *)
| DebugCheckpointProgress (seq : option string). (* Checkpoint progress at: ... *)

(** types.Record, as far as it is used: the payload and the sequence number
    (a [*string]). *)
Record Record_ := mkRecord {
  Data : bytes;
  SequenceNumber : option string
}.

(** The checkpointer handed in with a batch; it is represented by the
    sequence numbers it was asked to checkpoint, oldest first. *)
Record Checkpointer_ := mkCheckpointer { checkpoints : list (option string) }.

Definition Checkpoint (c : Checkpointer_) (seq : option string) : Checkpointer_ :=
  mkCheckpointer (checkpoints c ++ [seq]).

(** kc.ProcessRecordsInput.  [Checkpointer] is an interface value and may be
    nil; [CacheEntryTime] is a pointer and may be nil (the KCL sets the exit
    time whenever it sets the entry time). *)
Record ProcessRecordsInput := mkInput {
  Records : list Record_;
  CacheEntryTime : option Time;
  CacheExitTime : Time;
  MillisBehindLatest : Z;
  Checkpointer : option Checkpointer_
}.

(** The processor: the log and the index it shares with the route's handler,
    and what it has logged. *)
Record dumpRecordProcessor := mkProc {
  ml : Memlog;
  t2o : Timestamp2Offset;
  logger : list LogMsg
}.

Definition log_msg (dd : dumpRecordProcessor) (msg : LogMsg) : dumpRecordProcessor :=
  mkProc (ml dd) (t2o dd) (logger dd ++ [msg]).

(** How a call of [ProcessRecords] ends: it returns, or it panics out of the
    loop (with the index lock still held). *)
Inductive Outcome :=
| Returned (dd : dumpRecordProcessor) (cp : option Checkpointer_)
| Panicked (dd : dumpRecordProcessor) (cp : option Checkpointer_) (err : T2OError).

Section Pipeline.
Context `{JSON} `{TimeFmt}.
Variable ml_accepts : bytes -> bool.

(** The body of [for _, v := range input.Records]: [inl] is a panic. *)
Definition process_record (dd : dumpRecordProcessor) (v : Record_)
  : (dumpRecordProcessor * T2OError) + dumpRecordProcessor :=
  match json_Unmarshal (Data v) with
  | None => inr (log_msg dd WarnUnparseableJSON)
  | Some awsEvent =>
      match awsEvent !! "time"%string ≫= as_string with
      | None => inr (log_msg dd WarnMissingTime)
      | Some timestampString =>
          match time_Parse timestampString with
          | None => inr (log_msg dd WarnUnparseableTime)
          | Some timestamp =>
              match awsEvent !! "detail"%string with
              | None => inr (log_msg dd WarnMissingDetail)
              | Some cloudEvent =>
                  match json_Marshal cloudEvent with
                  | None => inr (log_msg dd ErrorMarshal)
                  | Some bytes =>
                      match memlog_Write ml_accepts (ml dd) bytes with
                      | (_, None) => inr (log_msg dd ErrorMemlogWrite)
                      | (ml', Some off) =>
                          match Add (t2o dd) off timestamp with
                          | (t2o', Some err) =>
                              inl (mkProc ml' t2o'
                                     (logger dd ++ [ErrorIncorrectUsage err]),
                                   err)
                          | (t2o', None) => inr (mkProc ml' t2o' (logger dd))
                          end
                      end
                  end
              end
          end
      end
  end.

Fixpoint process_loop (dd : dumpRecordProcessor) (records : list Record_)
  : (dumpRecordProcessor * T2OError) + dumpRecordProcessor :=
  match records with
  | [] => inr dd
  | v :: rest =>
      match process_record dd v with
      | inl p => inl p
      | inr dd' => process_loop dd' rest
      end
  end.

Definition ProcessRecords (dd : dumpRecordProcessor) (input : ProcessRecordsInput)
  : Outcome :=
  (* don't process empty record *)
  if (length (Records input) =? 0)%nat then Returned dd (Checkpointer input)
  else
    match process_loop dd (Records input) with
    | inl (dd', err) => Panicked dd' (Checkpointer input) err
    | inr dd' =>
        (* checkpoint it after processing this batch *)
        let lastRecordSequenceNumber :=
          default None (SequenceNumber <$> last (Records input)) in
        let dd'' :=
          match CacheEntryTime input with
          | Some _ => log_msg dd' (DebugCheckpointProgress lastRecordSequenceNumber)
          | None => dd'
          end in
        match Checkpointer input with
        | Some c => Returned dd'' (Some (Checkpoint c lastRecordSequenceNumber))
        | None => Returned dd'' None
        end
    end.

(** What the design document says of one record: the re-encoded payload the
    log receives for it, or nothing when the record is skipped. *)
Definition accepted_payload (v : Record_) : option bytes :=
  awsEvent ← json_Unmarshal (Data v);
  timestampString ← awsEvent !! "time"%string ≫= as_string;
  _ ← time_Parse timestampString;
  cloudEvent ← awsEvent !! "detail"%string;
  payload ← json_Marshal cloudEvent;
  if ml_accepts payload then Some payload else None.

End Pipeline.

(** ** service.go *)

Definition DefaultServicePort : Z := 4444.
Definition DefaultCapacity : Z := 100000.
Definition DefaultHost : string := "".

Record RouteOptions := mkRouteOptions {
  Pattern : string;
  Capacity : Z
}.

Record ServiceOptions := mkServiceOptions {
  Port : Z;
  Routes : list RouteOptions;
  disableKCL : bool
}.

(** A KCL worker, known by the pattern of the route it feeds. *)
Record Worker := mkWorker { worker_route : string }.

Record route := mkRoute {
  r_ml : Memlog;
  r_t2o : Timestamp2Offset;
  wrkr : option Worker
}.

(** The fields of [Service] that carry data: the port handed to the
    listener and the routes.  [l] is the published listener (its bound port). *)
Record Service := mkService {
  port : Z;
  routes : gmap string route;
  l : option Z
}.

Inductive ServiceError :=
| ErrNegativeCapacity                 (* capacity must be non-negative *)
| ErrIndex (e : T2OError).

(** The loop of [NewService] over [options.Routes].  [memlog.New] is taken
    to succeed, so its error return is not part of the model; neither are the
    registrations with the [http.ServeMux], which panic on a pattern that is
    not valid or clashes with one registered before, nor the KCL
    configuration of the route. *)
Fixpoint new_routes (disable : bool) (ros : list RouteOptions)
  (acc : gmap string route) : ServiceError + gmap string route :=
  match ros with
  | [] => inr acc
  | routeOptions :: rest =>
      let capacity := Capacity routeOptions in
      if capacity <? 0 then inl ErrNegativeCapacity
      else
        let capacity := if capacity =? 0 then DefaultCapacity else capacity in
        let ml := memlog_New in
        match NewTimestamp2Offset capacity with
        | inl e => inl (ErrIndex e)
        | inr t2o =>
            let wrkr :=
              if negb disable then Some (mkWorker (Pattern routeOptions)) else None in
            new_routes disable rest
              (<[Pattern routeOptions := mkRoute ml t2o wrkr]> acc)
        end
  end.

Definition NewService (options : ServiceOptions) : ServiceError + Service :=
  let p := Port options in
  let p := if p =? 0 then DefaultServicePort
           else if p =? -1 then 0
           else p in
  match new_routes (disableKCL options) (Routes options) ∅ with
  | inl e => inl e
  | inr rs => inr (mkService p rs None)
  end.

(** Go's [error] values that [Start] can see. *)
Inductive GoError :=
| ErrServerClosed                     (* http.ErrServerClosed *)
| ErrOther (msg : string).

(** What the surroundings answer during one run of [Start]: whether each
    worker starts, what [net.Listen] returns for a port (an error, or the port
    the listener is bound to) and the error [Serve] eventually returns. *)
Record StartEnv := mkEnv {
  worker_Start : Worker -> option GoError;
  net_Listen : string -> Z -> GoError + Z;
  srv_Serve : GoError
}.

(** The observable state around the service: the workers that run, the
    [Shutdown] calls made and the [net.Listen] calls made, oldest first. *)
Record Sys := mkSys {
  running : list Worker;
  shutdown_calls : list Worker;
  listen_calls : list (string * Z)
}.

#[global] Instance Worker_eq_dec : EqDecision Worker.
Proof. solve_decision. Defined.

Definition worker_Shutdown (w : Worker) (st : Sys) : Sys :=
  mkSys (filter (fun w' => w' ≠ w) (running st))
        (shutdown_calls st ++ [w])
        (listen_calls st).

(** [for _, wrkr := range started { wrkr.Shutdown() }] *)
Definition shutdown_all (started : list Worker) (st : Sys) : Sys :=
  foldl (fun st w => worker_Shutdown w st) st started.

(** Step 1 of [Start], over the routes in the order the range over the map
    yields them: [inl] is the early return after the roll-back. *)
Fixpoint start_workers (env : StartEnv) (rs : list route)
  (started : list Worker) (st : Sys) : (Sys * GoError) + (list Worker * Sys) :=
  match rs with
  | [] => inr (started, st)
  | r :: rest =>
      match wrkr r with
      | None => start_workers env rest started st
      | Some w =>
          match worker_Start env w with
          | Some err => inl (shutdown_all started st, err)
          | None =>
              start_workers env rest (started ++ [w])
                (mkSys (running st ++ [w]) (shutdown_calls st) (listen_calls st))
          end
      end
  end.

(** [Start], given the iteration order [order] of [s.routes].  The result is
    the service and the surroundings as the call leaves them, and the error
    returned ([None] is nil). *)
Definition Start (env : StartEnv) (s : Service) (order : list route) (st : Sys)
  : Service * Sys * option GoError :=
  (* 1. Start all the KCLs workers. *)
  match start_workers env order [] st with
  | inl (st', err) => (s, st', Some err)
  | inr (started, st1) =>
      (* 2. Acquire a port and broadcast the condition variable. *)
      let st2 := mkSys (running st1) (shutdown_calls st1)
                       (listen_calls st1 ++ [(DefaultHost, port s)]) in
      match net_Listen env DefaultHost (port s) with
      | inl err => (s, shutdown_all started st2, Some err)
      | inr bound =>
          let s' := mkService (port s) (routes s) (Some bound) in
          (* 3. Start serving. *)
          match srv_Serve env with
          | ErrServerClosed => (s', st2, None)
          | err => (s', st2, Some err)
          end
      end
  end.

(** The orders in which a range over [s.routes] can yield the routes. *)
Definition iteration_order (s : Service) (order : list route) : Prop :=
  order ≡ₚ (snd <$> map_to_list (routes s)).

(** *** The streaming handler *)

(** url.Values and its [Get]: the first value of the key, or the empty
    string. *)
Definition Values_Get (q : gmap string (list string)) (key : string) : string :=
  match q !! key with
  | Some (v :: _) => v
  | _ => ""%string
  end.

(** Wrap-around of [int64] arithmetic. *)
Definition int64_wrap (z : Z) : Z := (z + 2 ^ 63) mod 2 ^ 64 - 2 ^ 63.

(** [t.Add(d)] *)
Definition time_Add (t : Time) (d : Z) : Time := t + d.

(** What the handler needs of a request and of its response writer. *)
Record Request := mkRequest {
  query : gmap string (list string);
  is_Flusher : bool;        (* the writer implements http.Flusher *)
  write_ok : bool           (* writing the first frame succeeds *)
}.

(** How far the handler gets: an error response, a failed write of the
    first frame, or the tailing cursor opened at an offset after the
    [":ok"] frame was written and flushed. *)
Inductive Handled :=
| HttpError (msg : string) (code : Z)
| WriteFailed
| Streaming (timestamp : option Time) (off : Z).

Section Handler.
Context `{TimeFmt}.

(** Step 2 of [handleFunc]: [inl] is the 400; [now] is [time.Now()]. *)
Definition parse_since (now : Time) (since : string) : unit + option Time :=
  if bool_decide (since ≠ ""%string) then
    match time_Parse since with
    | Some ts => inr (Some ts)
    | None =>
        match time_ParseDuration since with
        | None => inl tt
        | Some d => inr (Some (time_Add now (int64_wrap (-1 * d))))
        end
    end
  else inr None.

Definition handleFunc (now : Time) (ml : Memlog) (t2o : Timestamp2Offset)
  (r : Request) : Handled :=
  (* 1. Ensure we can cast to http.Flusher. *)
  if negb (is_Flusher r) then HttpError "Internal Server Error" 500
  else
    (* 2. Check the "since" query parameter. *)
    let since := Values_Get (query r) "since" in
    match parse_since now since with
    | inl _ => HttpError "Bad Request" 400
    | inr timestamp =>
        (* 3. Start sending SSEs. *)
        if negb (write_ok r) then WriteFailed
        else
          let off := memlog_Range_latest ml in
          let off := if off <? 0 then 0 else off in
          let off :=
            match timestamp with
            | Some ts =>
                match NearestOffset t2o ts with
                | (nearestOff, true) => nearestOff
                | (_, false) => off
                end
            | None => off
            end in
          Streaming timestamp off
    end.

End Handler.

(** ** record_processor.go, continued: the end of a processor's life *)

(** kc.ShutdownReason. *)
Inductive ShutdownReason := REQUESTED | TERMINATE | ZOMBIE.

(** kc.ShutdownInput: the reason and the checkpointer (an interface value,
    possibly nil). *)
Record ShutdownInput := mkShutdownInput {
  sd_ShutdownReason : ShutdownReason;
  sd_Checkpointer : option Checkpointer_
}.

(** How [Shutdown] ends: it returns, leaving the checkpointer as given, or
    it panics on the call of a method of a nil checkpointer. *)
Inductive ShutdownOutcome :=
| ShutdownReturned (cp : option Checkpointer_)
| ShutdownPanicked.

(** [Shutdown] logs the reason and, when the reason is [TERMINATE],
    checkpoints the nil marker.  It reads neither the log nor the index; the
    result is the reason it logged and how the call ended. *)
Definition Shutdown (input : ShutdownInput) : ShutdownReason * ShutdownOutcome :=
  (sd_ShutdownReason input,
   match sd_ShutdownReason input with
   | TERMINATE =>
       match sd_Checkpointer input with
       | Some c => ShutdownReturned (Some (Checkpoint c None))
       | None => ShutdownPanicked
       end
   | _ => ShutdownReturned (sd_Checkpointer input)
   end).

(** ** service.go, continued: [Stop] *)

(** What the surroundings answer during [Stop]: the error of
    [srv.Shutdown] ([None] is nil). *)
Record StopEnv := mkStopEnv { srv_Shutdown : option GoError }.

(** The loop of [Stop] over [s.routes]: every worker is shut down in a
    goroutine of its own; [rs] lists the routes in the order in which the
    shutdowns take effect. *)
Fixpoint stop_workers (rs : list route) (st : Sys) : Sys :=
  match rs with
  | [] => st
  | r :: rest =>
      match wrkr r with
      | Some w => stop_workers rest (worker_Shutdown w st)
      | None => stop_workers rest st
      end
  end.

(** [Stop] returns once every worker has shut down and the HTTP server has
    shut down; its result is the server's.  The cancellation of the service's
    context is not part of the model. *)
Definition Stop (env : StopEnv) (s : Service) (order : list route) (st : Sys)
  : Sys * option GoError :=
  let st' := stop_workers order st in
  let err := srv_Shutdown env in
  (st', err).

(** ** The in-memory checkpointer *)

Module InMemoryCheckpointer.

(** The errors of the KCL's checkpoint package that the file uses. *)
Inductive CheckpointError :=
| ErrSequenceIDNotFound
| ErrShardNotAssigned.

(** chk.ShardEnd *)
Definition ShardEnd : string := "SHARD_END".

(** par.ShardStatus, as far as the file uses it.  Its getters and setters
    read and write the fields under the shard's own lock. *)
Record ShardStatus := mkShard {
  ID : string;
  ParentShardId : string;
  Checkpoint_ : string;
  AssignedTo : string;
  LeaseTimeout : Time
}.

Definition GetCheckpoint (shard : ShardStatus) : string := Checkpoint_ shard.
Definition GetLeaseTimeout (shard : ShardStatus) : Time := LeaseTimeout shard.
Definition shard_GetLeaseOwner (shard : ShardStatus) : string := AssignedTo shard.

Definition SetCheckpoint (shard : ShardStatus) (c : string) : ShardStatus :=
  mkShard (ID shard) (ParentShardId shard) c (AssignedTo shard) (LeaseTimeout shard).

Definition SetLeaseOwner (shard : ShardStatus) (owner : string) : ShardStatus :=
  mkShard (ID shard) (ParentShardId shard) (Checkpoint_ shard) owner (LeaseTimeout shard).

Definition set_LeaseTimeout (shard : ShardStatus) (t : Time) : ShardStatus :=
  mkShard (ID shard) (ParentShardId shard) (Checkpoint_ shard) (AssignedTo shard) t.

Record marshalledCheckpoint := mkItem {
  sequenceNumber : string;
  leaseTimeout : Time;
  parentShardId : string
}.

(** The checkpointer: its worker and its store.  (The logger only receives
    debug lines; the lock guards the store.) *)
Record inMemoryCheckpointer := mkCheckpointer_ {
  workerID : string;
  m : gmap string marshalledCheckpoint
}.

Definition NewInMemoryCheckpointer (workerID : string) : inMemoryCheckpointer :=
  mkCheckpointer_ workerID ∅.

Definition saveItem (checkpointer : inMemoryCheckpointer) (shardID : string)
  (item : marshalledCheckpoint) : inMemoryCheckpointer * option CheckpointError :=
  (mkCheckpointer_ (workerID checkpointer) (<[shardID := item]> (m checkpointer)), None).

Definition getItem (checkpointer : inMemoryCheckpointer) (shardID : string)
  : CheckpointError + marshalledCheckpoint :=
  match m checkpointer !! shardID with
  | Some item => inr item
  | None => inl ErrSequenceIDNotFound
  end.

Definition removeItem (checkpointer : inMemoryCheckpointer) (shardID : string)
  : inMemoryCheckpointer :=
  mkCheckpointer_ (workerID checkpointer) (delete shardID (m checkpointer)).

(** [GetLease]; [newLeaseTimeout] is [time.Now().AddDate(1, 0, 0).UTC()]. *)
Definition GetLease (newLeaseTimeout : Time) (checkpointer : inMemoryCheckpointer)
  (shard : ShardStatus) (newAssignTo : string)
  : inMemoryCheckpointer * ShardStatus * option CheckpointError :=
  (checkpointer,
   mkShard (ID shard) (ParentShardId shard) (Checkpoint_ shard) newAssignTo newLeaseTimeout,
   None).

Definition CheckpointSequence (checkpointer : inMemoryCheckpointer) (shard : ShardStatus)
  : inMemoryCheckpointer * option CheckpointError :=
  let leaseTimeout := GetLeaseTimeout shard in
  let item := mkItem (GetCheckpoint shard) leaseTimeout (ParentShardId shard) in
  saveItem checkpointer (ID shard) item.

Definition FetchCheckpoint (checkpointer : inMemoryCheckpointer) (shard : ShardStatus)
  : ShardStatus * option CheckpointError :=
  match getItem checkpointer (ID shard) with
  | inl err => (shard, Some err)
  | inr item =>
      let shard := SetCheckpoint shard (sequenceNumber item) in
      let shard := SetLeaseOwner shard (workerID checkpointer) in
      let shard := set_LeaseTimeout shard (leaseTimeout item) in
      (shard, None)
  end.

Definition RemoveLeaseInfo (checkpointer : inMemoryCheckpointer) (shardID : string)
  : inMemoryCheckpointer * option CheckpointError :=
  (removeItem checkpointer shardID, None).

Definition RemoveLeaseOwner (checkpointer : inMemoryCheckpointer) (shardID : string)
  : inMemoryCheckpointer * option CheckpointError :=
  (removeItem checkpointer shardID, None).

Definition GetLeaseOwner (checkpointer : inMemoryCheckpointer) (shardID : string)
  : string * option CheckpointError :=
  match getItem checkpointer shardID with
  | inl err => (""%string, Some err)
  | inr _ => (workerID checkpointer, None)
  end.

(** The loop of [ListActiveWorkers] over the shards, in the order the range
    over the map yields them; [workers] is the result built so far. *)
Fixpoint list_active (shards : list ShardStatus)
  (workers : gmap string (list ShardStatus))
  : CheckpointError + gmap string (list ShardStatus) :=
  match shards with
  | [] => inr workers
  | shard :: rest =>
      if decide (GetCheckpoint shard = ShardEnd) then list_active rest workers
      else
        let leaseOwner := shard_GetLeaseOwner shard in
        if decide (leaseOwner = ""%string) then inl ErrShardNotAssigned
        else
          match workers !! leaseOwner with
          | Some w => list_active rest (<[leaseOwner := w ++ [shard]]> workers)
          | None => list_active rest (<[leaseOwner := [shard]]> workers)
          end
  end.

Definition ListActiveWorkers (shardStatus : list ShardStatus)
  : CheckpointError + gmap string (list ShardStatus) :=
  list_active shardStatus ∅.

Definition ClaimShard (checkpointer : inMemoryCheckpointer) (shard : ShardStatus)
  (claimant : string)
  : inMemoryCheckpointer * ShardStatus * option CheckpointError :=
  let '(shard, err) := FetchCheckpoint checkpointer shard in
  match err with
  | Some ErrShardNotAssigned => (checkpointer, shard, err)
  | _ =>
      let item := mkItem (Checkpoint_ shard) (GetLeaseTimeout shard) (ParentShardId shard) in
      let '(checkpointer, err) := saveItem checkpointer (ID shard) item in
      (checkpointer, shard, err)
  end.

End InMemoryCheckpointer.

(** ** kinesis2sse.go: the routes of the command line *)

Module Main.

Record RouteOptionsCLI := mkCLI {
  Stream : string;
  Path : string;
  Capacity : Z;
  Start : string
}.

(** The initial position of a KCL configuration. *)
Inductive InitialPosition :=
| LATEST
| TRIM_HORIZON
| AT_TIMESTAMP (ts : Time).

Inductive RouteError :=
| ErrEmptyPath (i : nat)     (* route at index %d has an empty "path" *)
| ErrEmptyStream (i : nat).  (* route at index %d has an empty "stream" *)

Section Routes.
Context `{TimeFmt}.

(** The initial position the loop configures for a route.  [unset] is the
    position the KCL configuration has when none is set; [now] is
    [time.Now()].  The last branch of the chain is entered on [err != nil],
    that is when the start value is not a duration, and
    [time.ParseDuration] returns the duration 0 with its error. *)
Definition initial_position (unset : InitialPosition) (now : Time) (start : string)
  : InitialPosition :=
  if bool_decide (start = ""%string ∨ start = "LATEST"%string) then LATEST
  else if bool_decide (start = "TRIM_HORIZON"%string) then TRIM_HORIZON
  else match time_Parse start with
       | Some ts => AT_TIMESTAMP ts
       | None =>
           match time_ParseDuration start with
           | None => AT_TIMESTAMP (time_Add now (int64_wrap (-1 * 0)))
           | Some _ => unset
           end
       end.

(** The loop of [RunE] over [parsedRoutes], from index [i] on: the routes
    for [NewService], each with the name of its stream and its initial
    position. *)
Fixpoint build_routes (unset : InitialPosition) (now : nat → Time) (i : nat)
  (parsedRoutes : list RouteOptionsCLI)
  : RouteError + list (RouteOptions * (string * InitialPosition)) :=
  match parsedRoutes with
  | [] => inr []
  | parsedRoute :: rest =>
      if bool_decide (Path parsedRoute = ""%string) then inl (ErrEmptyPath i)
      else if bool_decide (Stream parsedRoute = ""%string) then inl (ErrEmptyStream i)
      else
        let position := initial_position unset (now i) (Start parsedRoute) in
        match build_routes unset now (S i) rest with
        | inl e => inl e
        | inr routes =>
            inr ((mkRouteOptions (Path parsedRoute) (Capacity parsedRoute),
                  (Stream parsedRoute, position)) :: routes)
        end
  end.

End Routes.

End Main.

(** * The vocabulary of the properties *)

(** ** The collation order of the tree's keys *)

Definition key_lt (a b : timestamp2OffsetsKey) : Prop :=
  timestamp a < timestamp b ∨ (timestamp a = timestamp b ∧ offset a < offset b).

Definition key_le (a b : timestamp2OffsetsKey) : Prop := a = b ∨ key_lt a b.

Definition sorted (tr : Tree.t) : Prop := StronglySorted key_lt tr.

(** ** The states of the index *)

(** The entries an index retains: the pairs of its offset-to-timestamp map. *)
Definition retains (m : Timestamp2Offset) (o : Z) (ts : Time) : Prop :=
  offset2Timestamp m !! o = Some ts.

Definition count (m : Timestamp2Offset) : Z := Z.of_nat (size (offset2Timestamp m)).

(** The states an index can be in: a fresh index, and what successful [Add]
    calls make of it. *)
Inductive reachable : Timestamp2Offset → Prop :=
| reach_new c m :
    NewTimestamp2Offset c = inr m → reachable m
| reach_add m o ts m' :
    reachable m → Add m o ts = (m', None) → reachable m'.

(** The representation invariant: the map holds the last [count] offsets, none
    negative, and the tree holds exactly the map's pairs, in order. *)
Record Inv (m : Timestamp2Offset) : Prop := mkInv {
  inv_cap : 0 < capacity m;
  inv_count : count m ≤ capacity m;
  inv_dom : ∀ o, is_Some (offset2Timestamp m !! o)
                 ↔ lastOffset m - count m < o ≤ lastOffset m;
  inv_nonneg : -1 ≤ lastOffset m - count m;
  inv_sorted : sorted (timestamp2Offsets m);
  inv_tree : ∀ k, k ∈ timestamp2Offsets m
                  ↔ offset2Timestamp m !! offset k = Some (timestamp k)
}.

(** ** The nearest-offset policy, in the design document's words *)

(** [o] is the offset of the earliest retained entry with a timestamp at or
    after [t], the smallest offset winning among equal timestamps. *)
Definition earliest_at_or_after (m : Timestamp2Offset) (t : Time) (o : Z) : Prop :=
  ∃ ts, retains m o ts ∧ t ≤ ts
        ∧ ∀ o' ts', retains m o' ts' → t ≤ ts' → ts < ts' ∨ (ts = ts' ∧ o ≤ o').

(** No retained entry has a timestamp at or after [t]. *)
Definition none_at_or_after (m : Timestamp2Offset) (t : Time) : Prop :=
  ∀ o' ts', retains m o' ts' → ts' < t.

(** [o] is the offset of the greatest (timestamp, offset) retained entry with
    a timestamp before [t]. *)
Definition latest_before (m : Timestamp2Offset) (t : Time) (o : Z) : Prop :=
  ∃ ts, retains m o ts ∧ ts < t
        ∧ ∀ o' ts', retains m o' ts' → ts' < t → ts' < ts ∨ (ts' = ts ∧ o' ≤ o).

(** The calls that present the offsets [first], [first + 1], ... with the
    given timestamps. *)
Definition run_from (first : Z) (tss : list Time) : list (Z * Time) :=
  imap (fun i ts => (first + Z.of_nat i, ts)) tss.

(** The entry that an [Add] of [o] on a full index has to evict is missing
    from the map, or from the tree. *)
Definition evictee_absent (m : Timestamp2Offset) (o : Z) : Prop :=
  offset2Timestamp m !! (o - capacity m) = None
  ∨ ∃ old, offset2Timestamp m !! (o - capacity m) = Some old
           ∧ mkKey old (o - capacity m) ∉ timestamp2Offsets m.

Definition fails_with (r : Timestamp2Offset * option T2OError) (c : ErrorClass) : Prop :=
  ∃ e, snd r = Some e ∧ error_class e = c.

(** ** The ingestion pipeline *)

(** The log and the index of a processor agree: the index is in a state it
    can reach, and either is empty or ends at the log's latest offset. *)
Definition in_sync (dd : dumpRecordProcessor) : Prop :=
  reachable (t2o dd)
  ∧ (count (t2o dd) = 0
     ∨ lastOffset (t2o dd) = Z.of_nat (length (ml_entries (ml dd))) - 1).

Definition outcome_checkpointer (out : Outcome) : option Checkpointer_ :=
  match out with
  | Returned _ cp => cp
  | Panicked _ cp _ => cp
  end.

(** The checkpoints a call committed: those its checkpointer holds after the
    call beyond those it held before. *)
Definition committed (input : ProcessRecordsInput) (out : Outcome)
  : list (option string) :=
  match Checkpointer input, outcome_checkpointer out with
  | Some c, Some c' => drop (length (checkpoints c)) (checkpoints c')
  | _, _ => []
  end.

(** The position of the batch's last record. *)
Definition last_position (input : ProcessRecordsInput) : option string :=
  default None (SequenceNumber <$> last (Records input)).

Section PipelineWords.
Context `{JSON} `{TimeFmt}.
Variable ml_accepts : bytes → bool.

(** The three kinds of malformed record the design document names, and the
    well-formed record with its re-encoded payload. *)
Definition unparsable (v : Record_) : Prop :=
  json_Unmarshal (Data v) = None.

Definition lacks_timestamp (v : Record_) : Prop :=
  ∃ awsEvent, json_Unmarshal (Data v) = Some awsEvent
              ∧ awsEvent !! "time"%string ≫= as_string = None.

Definition lacks_payload (v : Record_) : Prop :=
  ∃ awsEvent, json_Unmarshal (Data v) = Some awsEvent
              ∧ awsEvent !! "detail"%string = None.

Definition well_formed (v : Record_) (payload : bytes) : Prop :=
  ∃ awsEvent timestampString timestamp cloudEvent,
    json_Unmarshal (Data v) = Some awsEvent
    ∧ awsEvent !! "time"%string ≫= as_string = Some timestampString
    ∧ time_Parse timestampString = Some timestamp
    ∧ awsEvent !! "detail"%string = Some cloudEvent
    ∧ json_Marshal cloudEvent = Some payload
    ∧ ml_accepts payload = true.

(** A batch whose records are each marked with what the log is to receive
    for them: nothing for the three kinds of malformed record, the re-encoded
    payload for a well-formed one. *)
Definition marked (v : Record_) (mark : option bytes) : Prop :=
  match mark with
  | None => unparsable v ∨ lacks_timestamp v ∨ lacks_payload v
  | Some payload => well_formed v payload
  end.

End PipelineWords.

(** ** The service *)

(** Every worker among the routes [rs] starts. *)
Definition all_start (env : StartEnv) (rs : list route) : Prop :=
  ∀ r w, r ∈ rs → wrkr r = Some w → worker_Start env w = None.

(** The workers of the routes [rs], in order. *)
Definition workers (rs : list route) : list Worker := omap wrkr rs.

(** net.Listen's contract: port 0 asks the system for any free port. *)
Definition ephemeral (p : Z) : Prop := p = 0.

(** * The unit tests of the repository, as data *)

(** The unit test of the file (capacity 2; times in milliseconds). *)
Definition test_index (calls : list (Z * Time)) : Timestamp2Offset :=
  match NewTimestamp2Offset 2 with
  | inr m => fst (add_all m calls)
  | inl _ => mkT2O 0 0 ∅ []
  end.

(** A full index of capacity 1 whose tree has lost the entry of offset 0. *)
Definition corrupt_index : Timestamp2Offset := mkT2O 1 0 {[ 0 := 100 ]} [].

Inductive test_value :=
| TString (s : string)
| TObject (encoded : string).

Definition event (name : string) : bytes := String.list_byte_of_string name.

(** The decoders, given by finite tables that answer for encoding/json and
    package time on exactly the events of [TestRecordProcessor]. *)
Definition test_Unmarshal (data : bytes) : option (gmap string test_value) :=
  let name := String.string_of_list_byte data in
  if decide (name = "eventWithoutTime"%string) then
    Some {[ "detail"%string := TObject "{}" ]}
  else if decide (name = "eventWithoutDetail"%string) then
    Some {[ "time"%string := TString "1970-01-01T00:00:00.000Z" ]}
  else if decide (name = "goodEvent1"%string) then
    Some (<[ "time"%string := TString "1970-01-01T00:00:00.000Z" ]>
            {[ "detail"%string := TObject "{event:1,good:true}" ]})
  else if decide (name = "goodEvent2"%string) then
    Some (<[ "time"%string := TString "1970-01-01T00:00:00.001Z" ]>
            {[ "detail"%string := TObject "{event:2,good:true}" ]})
  else None.

Definition test_JSON : JSON := {|
  any := test_value;
  as_string := fun v => match v with TString s => Some s | TObject _ => None end;
  json_Unmarshal := test_Unmarshal;
  json_Marshal := fun v =>
    match v with
    | TString s => Some (event s)
    | TObject encoded => Some (event encoded)
    end
|}.

Definition test_TimeFmt : TimeFmt := {|
  time_Parse := fun s =>
    if decide (s = "1970-01-01T00:00:00.000Z"%string) then Some 0
    else if decide (s = "1970-01-01T00:00:00.001Z"%string) then Some 1
    else None;
  time_ParseDuration := fun s =>
    if decide (s = "1h"%string) then Some 3600000000000 else None
|}.

Definition accept_all (data : bytes) : bool := true.

Definition test_processor : dumpRecordProcessor :=
  mkProc memlog_New (mkT2O 100 (-1) ∅ []) [].

Definition test_records : list Record_ :=
  [ mkRecord (event "bogus") None;
    mkRecord (event "eventWithoutTime") None;
    mkRecord (event "eventWithoutDetail") None;
    mkRecord (event "goodEvent1") None;
    mkRecord (event "goodEvent2") (Some "49590338271490256608559692538361571095921575989136588898"%string) ].

(** The batch as the unit test hands it in: no checkpointer. *)
Definition test_batch : ProcessRecordsInput :=
  mkInput test_records None 0 0 None.

(** The same batch as the KCL hands it in: with a checkpointer. *)
Definition kcl_batch : ProcessRecordsInput :=
  mkInput test_records (Some 0) 5 0 (Some (mkCheckpointer [])).

(** The services and surroundings of the examples. *)
Definition two_routes (p : Z) : ServiceOptions :=
  mkServiceOptions p [mkRouteOptions "/foo" 0; mkRouteOptions "/bar" 0] false.

Definition service_of (options : ServiceOptions) : Service :=
  match NewService options with
  | inr s => s
  | inl _ => mkService 0 ∅ None
  end.

(** The order in which this model's map lists the routes: one of the orders
    a range over [s.routes] can take. *)
Definition range_order (s : Service) : list route := snd <$> map_to_list (routes s).

Definition idle : Sys := mkSys [] [] [].

(** Everything works until [Serve] fails on the listener. *)
Definition serve_fails : StartEnv :=
  mkEnv (fun _ => None) (fun _ p => inr (if p =? 0 then 49152 else p))
        (ErrOther "accept tcp: use of closed network connection").

(** The worker of "/foo" fails to start. *)
Definition foo_fails : StartEnv :=
  mkEnv (fun w => if decide (worker_route w = "/foo"%string)
                  then Some (ErrOther "worker: stream not found") else None)
        (fun _ p => inr (if p =? 0 then 49152 else p))
        ErrServerClosed.

(** The port is taken. *)
Definition bind_fails : StartEnv :=
  mkEnv (fun _ => None) (fun _ _ => inl (ErrOther "bind: address already in use"))
        ErrServerClosed.

Definition since_request (since : string) : Request :=
  mkRequest {[ "since"%string := [since] ]} true true.



(** * Further vocabulary *)

Section PipelineRuns.
Context `{JSON} `{TimeFmt}.
Variable ml_accepts : bytes → bool.

(** What the pipeline hands to the log and to the index for one record: the
    re-encoded payload and the parsed timestamp, or nothing when the record
    is skipped. *)
Definition accepted_entry (v : Record_) : option (bytes * Time) :=
  awsEvent ← json_Unmarshal (Data v);
  timestampString ← awsEvent !! "time"%string ≫= as_string;
  timestamp ← time_Parse timestampString;
  cloudEvent ← awsEvent !! "detail"%string;
  payload ← json_Marshal cloudEvent;
  if ml_accepts payload then Some (payload, timestamp) else None.

(** The batches of one shard, handed in one after the other with the same
    checkpointer. *)
Fixpoint run_batches (dd : dumpRecordProcessor) (c : Checkpointer_)
  (batches : list ProcessRecordsInput) : Outcome :=
  match batches with
  | [] => Returned dd (Some c)
  | input :: rest =>
      match ProcessRecords ml_accepts dd
              (mkInput (Records input) (CacheEntryTime input) (CacheExitTime input)
                       (MillisBehindLatest input) (Some c)) with
      | Returned dd' (Some c') => run_batches dd' c' rest
      | out => out
      end
  end.

End PipelineRuns.

(** The [Add] calls that index the entries [entries] written to the log from
    offset [first] on. *)
Definition index_calls (first : nat) (entries : list (bytes * Time)) : list (Z * Time) :=
  imap (fun i e => (Z.of_nat (first + i), snd e)) entries.

(** The positions of the non-empty batches. *)
Definition batch_positions (batches : list ProcessRecordsInput) : list (option string) :=
  last_position <$> filter (fun input => Records input ≠ []) batches.

(** The shards [ListActiveWorkers] reports for an owner. *)
Definition active_of (owner : string) (shards : list InMemoryCheckpointer.ShardStatus)
  : list InMemoryCheckpointer.ShardStatus :=
  filter (fun shard => InMemoryCheckpointer.Checkpoint_ shard ≠ InMemoryCheckpointer.ShardEnd
                       ∧ InMemoryCheckpointer.AssignedTo shard = owner) shards.

(** The capacity [NewService] gives to the log and the index of a route. *)
Definition effective_capacity (ro : RouteOptions) : Z :=
  if Capacity ro =? 0 then DefaultCapacity else Capacity ro.

(** * Further data for the examples *)

(** A processor whose index has an entry the log does not have. *)
Definition out_of_step_processor : dumpRecordProcessor :=
  mkProc memlog_New (test_index [(0, 100)]) [].

Definition two_entry_log : Memlog := mkLog [event "a"; event "b"].

(** The batch of the unit test, twice. *)
Definition double_batch : ProcessRecordsInput :=
  mkInput (test_records ++ test_records) None 0 0 None.

Definition empty_batch : ProcessRecordsInput := mkInput [] None 0 0 None.

Definition stop_ok : StopEnv := mkStopEnv None.


Definition sample_checkpointer : InMemoryCheckpointer.inMemoryCheckpointer :=
  InMemoryCheckpointer.NewInMemoryCheckpointer "worker-1".

(** A shard with progress, leased to another worker. *)
Definition shard_with_progress : InMemoryCheckpointer.ShardStatus :=
  InMemoryCheckpointer.mkShard "shardId-000000000000" "" "49590338271490256608"
    "worker-2" 1000.

(** The same shard as a worker first sees it. *)
Definition shard_unread : InMemoryCheckpointer.ShardStatus :=
  InMemoryCheckpointer.mkShard "shardId-000000000000" "shardId-parent" "" "" 0.

(** * Properties *)

(** ** The unit test of the index *)

Example test_empty : NearestOffset (test_index []) 0 = (-1, false).
Proof. reflexivity. Qed.

Example test_one :
  map (NearestOffset (test_index [(0, 100)])) [0; 100; 1000]
  = [(0, true); (0, true); (0, true)].
Proof. vm_compute. reflexivity. Qed.

Example test_two :
  map (NearestOffset (test_index [(0, 100); (1, 500)])) [0; 100; 250; 500; 1000]
  = [(0, true); (0, true); (1, true); (1, true); (1, true)].
Proof. vm_compute. reflexivity. Qed.

Example test_shifted :
  map (NearestOffset (test_index [(0, 100); (1, 500); (2, 250)]))
      [0; 100; 250; 300; 500; 1000]
  = [(2, true); (2, true); (2, true); (1, true); (1, true); (1, true)].
Proof. vm_compute. reflexivity. Qed.

(** ** The collation order of the tree's keys *)

Lemma key_eta (a : timestamp2OffsetsKey) : a = mkKey (timestamp a) (offset a).
Proof. by destruct a. Qed.

Lemma key_ext (a b : timestamp2OffsetsKey) :
  timestamp a = timestamp b → offset a = offset b → a = b.
Proof. destruct a, b; simpl; congruence. Qed.

(** The comparison function decides the order. *)
Lemma cmp_cases (a b : timestamp2OffsetsKey) :
  (timestamp2OffsetsKeyCmp a b = -1 ∧ key_lt a b)
  ∨ (timestamp2OffsetsKeyCmp a b = 0 ∧ a = b)
  ∨ (timestamp2OffsetsKeyCmp a b = 1 ∧ key_lt b a).
Proof.
  unfold timestamp2OffsetsKeyCmp, time_Compare, cmp_Compare, key_lt.
  destruct (Z.ltb_spec (timestamp a) (timestamp b)); simpl; [left; lia|].
  destruct (Z.ltb_spec (timestamp b) (timestamp a)); simpl; [right; right; lia|].
  destruct (Z.ltb_spec (offset a) (offset b)); [left; lia|].
  destruct (Z.ltb_spec (offset b) (offset a)); [right; right; lia|].
  right; left; split; [done|]. apply key_ext; lia.
Qed.

Lemma key_lt_irrefl a : ¬ key_lt a a.
Proof. unfold key_lt; lia. Qed.

Lemma key_lt_trans a b c : key_lt a b → key_lt b c → key_lt a c.
Proof. unfold key_lt; lia. Qed.

Lemma key_lt_asym a b : key_lt a b → ¬ key_lt b a.
Proof. unfold key_lt; lia. Qed.

#[local] Instance key_lt_Transitive : Transitive key_lt.
Proof. intros a b c. apply key_lt_trans. Qed.

Ltac cmp_case k x :=
  let Hc := fresh "Hc" in let Hk := fresh "Hk" in
  destruct (cmp_cases k x) as [[Hc Hk]|[[Hc Hk]|[Hc Hk]]];
  rewrite ?Hc in *; simpl in *.

(** ** The tree operations on the list of keys *)

Module TreeFacts.
Import Tree.

Lemma Set_elem k tr x : x ∈ Set_ k tr ↔ x = k ∨ x ∈ tr.
Proof.
  induction tr as [|y tr IH]; simpl.
  - rewrite list_elem_of_singleton, elem_of_nil. tauto.
  - cmp_case k y.
    + rewrite !elem_of_cons. tauto.
    + subst. rewrite !elem_of_cons. tauto.
    + rewrite !elem_of_cons, IH. tauto.
Qed.

Lemma Set_sorted k tr : sorted tr → sorted (Set_ k tr).
Proof.
  unfold sorted. induction tr as [|y tr IH]; simpl; intros Hs.
  - repeat constructor.
  - apply StronglySorted_inv in Hs as [Hs Hall]. cmp_case k y.
    + constructor; [by constructor|]. constructor; [done|].
      eapply Forall_impl; [exact Hall|]. intros z Hz. by etrans.
    + subst. by constructor.
    + constructor; [by apply IH|].
      apply Forall_forall. intros z Hz%Set_elem. destruct Hz as [->|Hz]; [done|].
      by eapply Forall_forall in Hall.
Qed.

Lemma Delete_found k tr : snd (Delete k tr) = true ↔ k ∈ tr.
Proof.
  induction tr as [|y tr IH]; simpl.
  - rewrite elem_of_nil. split; [done|tauto].
  - cmp_case k y.
    + destruct (Delete k tr) as [r ok] eqn:E. simpl in *.
      rewrite elem_of_cons, IH. split; [tauto|]. intros [->|?]; [|done].
      by apply key_lt_irrefl in Hk.
    + subst. rewrite elem_of_cons. tauto.
    + destruct (Delete k tr) as [r ok] eqn:E. simpl in *.
      rewrite elem_of_cons, IH. split; [tauto|]. intros [->|?]; [|done].
      by apply key_lt_irrefl in Hk.
Qed.

Lemma Delete_elem k tr x :
  sorted tr → x ∈ fst (Delete k tr) ↔ x ∈ tr ∧ x ≠ k.
Proof.
  unfold sorted. induction tr as [|y tr IH]; simpl; intros Hs.
  - rewrite elem_of_nil. tauto.
  - apply StronglySorted_inv in Hs as [Hs Hall].
    assert (Hy : y ∉ tr).
    { intros Hy. eapply Forall_forall in Hall; [|exact Hy].
      by apply key_lt_irrefl in Hall. }
    cmp_case k y.
    + destruct (Delete k tr) as [r ok] eqn:E. simpl in *.
      rewrite !elem_of_cons, IH by done. split; [|tauto].
      intros [->|?]; [|tauto]. split; [by left|]. intros ->.
      by apply key_lt_irrefl in Hk.
    + subst. rewrite elem_of_cons. split; [|tauto].
      intros Hx. split; [by right|]. by intros ->.
    + destruct (Delete k tr) as [r ok] eqn:E. simpl in *.
      rewrite !elem_of_cons, IH by done. split; [|tauto].
      intros [->|?]; [|tauto]. split; [by left|]. intros ->.
      by apply key_lt_irrefl in Hk.
Qed.

Lemma Delete_sorted k tr : sorted tr → sorted (fst (Delete k tr)).
Proof.
  unfold sorted. induction tr as [|y tr IH]; simpl; intros Hs; [done|].
  pose proof Hs as Hs0.
  apply StronglySorted_inv in Hs as [Hs Hall].
  destruct (timestamp2OffsetsKeyCmp k y =? 0); [done|].
  destruct (Delete k tr) as [r ok] eqn:E. simpl in *.
  constructor; [by apply IH|].
  apply Forall_forall. intros z Hz.
  assert (z ∈ fst (Delete k tr)) as Hz' by (by rewrite E).
  apply Delete_elem in Hz' as [Hz' _]; [|done].
  by eapply Forall_forall in Hall.
Qed.

(** [seek_index] splits a sorted tree into the keys below [k] and the keys
    not below it, and reports a hit exactly when [k] heads the second part. *)
Lemma seek_index_spec k tr i hit :
  sorted tr → seek_index k tr = (i, hit) →
  Forall (fun x => key_lt x k) (take i tr)
  ∧ Forall (fun x => key_le k x) (drop i tr)
  ∧ (i ≤ length tr)%nat
  ∧ (hit = true ↔ tr !! i = Some k).
Proof.
  unfold sorted. revert i hit.
  induction tr as [|y tr IH]; simpl; intros i hit Hs Hseek.
  - inversion Hseek; subst. simpl. repeat split; auto; done.
  - apply StronglySorted_inv in Hs as [Hs Hall]. cmp_case k y.
    + inversion Hseek; subst. simpl. repeat split; auto with lia; try done.
      * constructor; [by right|].
        eapply Forall_impl; [exact Hall|]. intros z Hz. right. by etrans.
      * intros [=->]. by apply key_lt_irrefl in Hk.
    + inversion Hseek; subst. simpl. repeat split; auto with lia.
      constructor; [by left|].
      eapply Forall_impl; [exact Hall|]. intros z Hz. by right.
    + destruct (seek_index k tr) as [j h] eqn:E. inversion Hseek; subst.
      destruct (IH j hit Hs eq_refl) as (H1 & H2 & H3 & H4).
      simpl. repeat split; auto with lia; try apply H4.
Qed.

End TreeFacts.

(** ** The index: states, invariant, reachability *)

Section Index.
Import Tree TreeFacts.

Lemma Inv_new c m : NewTimestamp2Offset c = inr m → Inv m.
Proof.
  unfold NewTimestamp2Offset. destruct (Z.leb_spec c 0); [done|].
  intros [= <-]. split; unfold count; simpl; rewrite ?map_size_empty; try lia.
  - intros o. rewrite lookup_empty. split; [by intros [? ?]|lia].
  - constructor.
  - intros k. rewrite lookup_empty, elem_of_nil. split; [tauto|done].
Qed.

(** What a successful [Add] does to the fields, case by case. *)
Lemma Add_success m o ts m' :
  Add m o ts = (m', None) →
  0 ≤ o
  ∧ (count m = 0 ∨ lastOffset m = o - 1)
  ∧ capacity m' = capacity m
  ∧ lastOffset m' = o
  ∧ ((count m ≠ capacity m
      ∧ offset2Timestamp m' = <[o := ts]> (offset2Timestamp m)
      ∧ timestamp2Offsets m' = Set_ (mkKey ts o) (timestamp2Offsets m))
     ∨ (count m = capacity m
        ∧ ∃ old,
            offset2Timestamp m !! (o - capacity m) = Some old
            ∧ mkKey old (o - capacity m) ∈ timestamp2Offsets m
            ∧ offset2Timestamp m'
              = <[o := ts]> (delete (o - capacity m) (offset2Timestamp m))
            ∧ timestamp2Offsets m'
              = Set_ (mkKey ts o)
                  (fst (Delete (mkKey old (o - capacity m)) (timestamp2Offsets m))))).
Proof.
  unfold Add, count.
  destruct (Z.ltb_spec o 0) as [|Ho]; [done|].
  set (n := Z.of_nat (size (offset2Timestamp m))).
  destruct (Z.eqb_spec n 0) as [Hn0|Hn0];
    [|destruct (Z.eqb_spec (lastOffset m) (o - 1)) as [Hl|Hl]; [|done]];
    cbn [negb set_lastOffset capacity offset2Timestamp timestamp2Offsets];
    (destruct (Z.eqb_spec n (capacity m)) as [Hn|Hn];
     [ destruct (offset2Timestamp m !! (o - capacity m)) as [old|] eqn:Hold; [|done];
       destruct (Delete (mkKey old (o - capacity m)) (timestamp2Offsets m))
         as [tr ok] eqn:HD;
       destruct ok; cbn [negb]; [|done];
       intros [= <-]; cbn;
       (split; [done|]); (split; [auto|]); (split; [done|]); (split; [done|]);
       right; (split; [done|]); exists old;
       (split; [done|]); (split; [|by rewrite HD]);
       apply Delete_found; by rewrite HD
     | intros [= <-]; cbn;
       (split; [done|]); (split; [auto|]); (split; [done|]); (split; [done|]);
       by left ]).
Qed.

(** The five ways a call of [Add] can go, with what decides each. *)
Lemma Add_cases m o ts :
  (o < 0 ∧ Add m o ts = (m, Some ErrNegativeOffset))
  ∨ (0 ≤ o ∧ count m ≠ 0 ∧ lastOffset m ≠ o - 1
     ∧ Add m o ts = (m, Some (ErrLastOffset o (lastOffset m))))
  ∨ (0 ≤ o ∧ (count m = 0 ∨ lastOffset m = o - 1) ∧ count m = capacity m
     ∧ offset2Timestamp m !! (o - capacity m) = None
     ∧ snd (Add m o ts) = Some (ErrOldOffsetNotFound (o - capacity m)))
  ∨ (0 ≤ o ∧ (count m = 0 ∨ lastOffset m = o - 1) ∧ count m = capacity m
     ∧ ∃ old, offset2Timestamp m !! (o - capacity m) = Some old
              ∧ (mkKey old (o - capacity m) ∉ timestamp2Offsets m)
              ∧ snd (Add m o ts) = Some (ErrOldTimestampNotFound old (o - capacity m)))
  ∨ (0 ≤ o ∧ (count m = 0 ∨ lastOffset m = o - 1)
     ∧ (count m = capacity m → ¬ evictee_absent m o)
     ∧ snd (Add m o ts) = None).
Proof.
  unfold Add, evictee_absent, count.
  set (n := Z.of_nat (size (offset2Timestamp m))).
  destruct (Z.ltb_spec o 0) as [Hneg|Hpos]; [by left|]. right.
  assert (Hseq : (n = 0 ∨ lastOffset m = o - 1) ∨ (n ≠ 0 ∧ lastOffset m ≠ o - 1)) by lia.
  destruct Hseq as [Hseq|[Hn0 Hl]].
  2:{ left. destruct (Z.eqb_spec n 0); [done|].
      by destruct (Z.eqb_spec (lastOffset m) (o - 1)). }
  right.
  set (m1 := if n =? 0 then set_lastOffset m o else m).
  assert (Hfirst :
    (if n =? 0 then (set_lastOffset m o, None)
     else if negb (lastOffset m =? o - 1)
          then (m, Some (ErrLastOffset o (lastOffset m)))
          else (m, None)) = (m1, None)).
  { subst m1. destruct (Z.eqb_spec n 0); [done|].
    destruct Hseq as [?|Hl]; [done|]. by rewrite Hl, Z.eqb_refl. }
  rewrite Hfirst.
  assert (capacity m1 = capacity m) as -> by (subst m1; by destruct (n =? 0)).
  assert (offset2Timestamp m1 = offset2Timestamp m) as ->
    by (subst m1; by destruct (n =? 0)).
  assert (timestamp2Offsets m1 = timestamp2Offsets m) as ->
    by (subst m1; by destruct (n =? 0)).
  destruct (Z.eqb_spec n (capacity m)) as [Hn|Hn].
  - destruct (offset2Timestamp m !! (o - capacity m)) as [old|] eqn:Hold.
    + pose proof (Delete_found (mkKey old (o - capacity m))
                    (timestamp2Offsets m)) as Hfound.
      destruct (Delete _ _) as [tr ok]. simpl in Hfound.
      destruct ok; cbn [negb snd].
      * right; right. repeat split; try done.
        intros _ [[=]|(old' & [= <-] & Hnin)]. by apply Hnin, Hfound.
      * right; left. repeat split; try done. exists old.
        repeat split; try done. by intros Hin%Hfound.
    + left. by repeat split.
  - right; right. by repeat split.
Qed.

(** On an index that is not empty, [Add] writes nothing before it either
    fails or has passed all its checks. *)
Lemma Add_full_unchanged m o ts e :
  count m ≠ 0 → snd (Add m o ts) = Some e → fst (Add m o ts) = m.
Proof.
  unfold Add, count. intros Hn.
  destruct (o <? 0); [done|].
  destruct (Z.eqb_spec (Z.of_nat (size (offset2Timestamp m))) 0); [done|].
  destruct (lastOffset m =? o - 1); cbn [negb]; [|done].
  destruct (_ =? capacity m); [|done].
  destruct (offset2Timestamp m !! (o - capacity m)); [|done].
  destruct (Delete _ _) as [tr ok]. by destruct ok.
Qed.

Lemma Inv_Add m o ts m' : Inv m → Add m o ts = (m', None) → Inv m'.
Proof.
  intros [Hcap Hcnt Hdom Hnn Hsort Htree] Hadd.
  apply Add_success in Hadd as (Ho & Hlast & Hc' & Hl' & Hcase).
  unfold count in *.
  assert (Hfresh : offset2Timestamp m !! o = None).
  { destruct (offset2Timestamp m !! o) eqn:E; [|done].
    assert (is_Some (offset2Timestamp m !! o)) as Hs by eauto.
    apply Hdom in Hs. destruct Hlast as [H0|H0]; lia. }
  destruct Hcase as [(Hne & Hmap & Htr)|(Heq & old & Hold & Hin & Hmap & Htr)].
  - assert (Hsz : size (offset2Timestamp m') = S (size (offset2Timestamp m))).
    { rewrite Hmap. by apply map_size_insert_None. }
    split; unfold count; rewrite ?Hc', ?Hl', ?Hsz; try lia.
    + intros x. rewrite Hmap. destruct (decide (x = o)) as [->|Hx].
      * rewrite lookup_insert_eq. split; [lia|eauto].
      * rewrite lookup_insert_ne by done. rewrite Hdom.
        destruct Hlast as [H0|H0]; [|lia].
        split; [lia|]. intros ?.
        assert (size (offset2Timestamp m) = 0%nat) as Hz by lia. lia.
    + rewrite Htr. by apply Set_sorted.
    + intros k. rewrite Htr, Hmap, Set_elem.
      destruct (decide (offset k = o)) as [Hk|Hk].
      * rewrite Hk, lookup_insert_eq. split.
        -- intros [->|Hin]; [done|]. apply Htree in Hin. congruence.
        -- intros [= ->]. left. rewrite <- Hk. apply key_eta.
      * rewrite lookup_insert_ne by done. rewrite Htree. split; [|tauto].
        intros [->|?]; [|done]. by simpl in Hk.
  - assert (Hon : o - capacity m ≠ o) by lia.
    assert (Hsz : size (offset2Timestamp m') = size (offset2Timestamp m)).
    { rewrite Hmap, map_size_insert_None
        by (by rewrite lookup_delete_ne).
      rewrite map_size_delete_Some by eauto.
      assert (size (offset2Timestamp m) ≠ 0%nat) by lia. lia. }
    split; unfold count; rewrite ?Hc', ?Hl', ?Hsz; try lia.
    + intros x. rewrite Hmap. destruct (decide (x = o)) as [->|Hx].
      * rewrite lookup_insert_eq. split; [lia|eauto].
      * rewrite lookup_insert_ne by done.
        destruct (decide (x = o - capacity m)) as [->|Hx'].
        -- rewrite lookup_delete_eq. split; [by intros [? ?]|lia].
        -- rewrite lookup_delete_ne by done. rewrite Hdom. lia.
    + rewrite Htr. by apply Set_sorted, Delete_sorted.
    + intros k. rewrite Htr, Hmap, Set_elem, Delete_elem by done.
      destruct (decide (offset k = o)) as [Hk|Hk].
      * rewrite Hk, lookup_insert_eq. split.
        -- intros [->|[Hin' _]]; [done|]. apply Htree in Hin'. congruence.
        -- intros [= ->]. left. rewrite <- Hk. apply key_eta.
      * rewrite lookup_insert_ne by done.
        destruct (decide (offset k = o - capacity m)) as [Hk'|Hk'].
        -- rewrite Hk', lookup_delete_eq. split; [|done].
           intros [->|[Hin' Hne]]; [by simpl in Hk|].
           apply Htree in Hin'. rewrite Hk', Hold in Hin'.
           destruct Hne. apply key_ext; simpl; congruence.
        -- rewrite lookup_delete_ne by done. rewrite Htree. split.
           ++ intros [->|[? _]]; [by simpl in Hk|done].
           ++ intros Hl. right. split; [done|]. intros ->. by simpl in Hk'.
Qed.

Lemma reachable_Inv m : reachable m → Inv m.
Proof.
  induction 1 as [c m Hnew|m o ts m' _ IH Hadd];
    eauto using Inv_new, Inv_Add.
Qed.

(** An index that satisfies its invariant accepts the offset that continues
    its run (and any non-negative offset while it is empty). *)
Lemma Add_accepts m o ts :
  Inv m → 0 ≤ o → (count m = 0 ∨ lastOffset m = o - 1) →
  ∃ m', Add m o ts = (m', None).
Proof.
  intros [Hcap Hcnt Hdom Hnn Hsort Htree] Ho Hlast. unfold Add, count in *.
  destruct (Z.ltb_spec o 0) as [|_]; [lia|].
  set (n := Z.of_nat (size (offset2Timestamp m))) in *.
  destruct (Z.eqb_spec n 0) as [Hn0|Hn0].
  - cbn [set_lastOffset capacity offset2Timestamp timestamp2Offsets].
    destruct (Z.eqb_spec n (capacity m)); [lia|]. eauto.
  - destruct Hlast as [?|Hl]; [done|].
    destruct (Z.eqb_spec (lastOffset m) (o - 1)); [|done]. cbn [negb].
    destruct (Z.eqb_spec n (capacity m)) as [Hn|Hn]; [|eauto].
    assert (is_Some (offset2Timestamp m !! (o - capacity m))) as [old Hold].
    { apply Hdom. lia. }
    rewrite Hold.
    assert (mkKey old (o - capacity m) ∈ timestamp2Offsets m) as Hin
      by (by apply Htree).
    apply Delete_found in Hin.
    destruct (Delete (mkKey old (o - capacity m)) (timestamp2Offsets m)) as [tr ok].
    simpl in Hin. subst ok. cbn [negb]. eauto.
Qed.


Lemma Inv_offset_nonneg m o ts : Inv m → retains m o ts → 0 ≤ o.
Proof.
  intros HI Hr. assert (is_Some (offset2Timestamp m !! o)) as Hs by (by eexists).
  apply (inv_dom m HI) in Hs. pose proof (inv_nonneg m HI). lia.
Qed.

Lemma NearestOffset_policy m t :
  Inv m →
  (offset2Timestamp m = ∅ ∧ NearestOffset m t = (-1, false))
  ∨ (∃ o, NearestOffset m t = (o, true) ∧ earliest_at_or_after m t o)
  ∨ (∃ o, NearestOffset m t = (o, true)
          ∧ none_at_or_after m t ∧ latest_before m t o).
Proof.
  intros HI. pose proof (inv_sorted m HI) as Hsort.
  pose proof (inv_tree m HI) as Htree.
  unfold NearestOffset, Seek.
  destruct (seek_index (mkKey t 0) (timestamp2Offsets m)) as [i hit] eqn:Hseek.
  destruct (seek_index_spec _ _ _ _ Hsort Hseek) as (Hlo & Hhi & Hlen & Hhit).
  unfold Next, Prev. cbn [e_items e_i e_hit].
  set (tr := timestamp2Offsets m) in *.
  assert (Hbelow : ∀ o' ts', retains m o' ts' → mkKey ts' o' ∈ take i tr → ts' < t).
  { intros o' ts' Hr Hin. eapply Forall_forall in Hlo; [|exact Hin].
    pose proof (Inv_offset_nonneg _ _ _ HI Hr).
    unfold key_lt in Hlo; simpl in Hlo. lia. }
  destruct (tr !! i) as [k|] eqn:Hi; cbn [fst].
  - right; left. exists (offset k). split; [done|].
    pose proof (take_drop_middle _ _ _ Hi) as Hsplit.
    assert (Hk : k ∈ tr) by (by eapply list_elem_of_lookup_2).
    assert (Hge : key_le (mkKey t 0) k).
    { rewrite (drop_S _ _ _ Hi) in Hhi. by apply Forall_cons in Hhi as [? _]. }
    exists (timestamp k). split; [by apply Htree|]. split.
    { destruct Hge as [<-|Hge]; [simpl; lia|].
      unfold key_lt in Hge; simpl in Hge. lia. }
    intros o' ts' Hr Hts.
    assert (Hin : mkKey ts' o' ∈ tr) by (by apply Htree).
    rewrite <- Hsplit, elem_of_app, elem_of_cons in Hin.
    destruct Hin as [Hin|[Heq|Hin]].
    + specialize (Hbelow _ _ Hr Hin). lia.
    + rewrite <- Heq. simpl. lia.
    + unfold sorted in Hsort. rewrite <- Hsplit in Hsort.
      apply StronglySorted_app_1_r, StronglySorted_inv in Hsort as [_ Hall].
      eapply Forall_forall in Hall; [|exact Hin].
      unfold key_lt in Hall; simpl in Hall. lia.
  - assert (hit = false) as ->.
    { destruct hit; [|done]. destruct Hhit as [Hhit _].
      specialize (Hhit eq_refl). congruence. }
    apply lookup_ge_None in Hi.
    assert (i = length tr) as -> by lia.
    rewrite take_ge in Hbelow by lia.
    destruct (length tr) as [|j] eqn:Hlentr.
    + left. split; [|done]. apply length_zero_iff_nil in Hlentr.
      apply map_empty. intros o. destruct (offset2Timestamp m !! o) as [ts|] eqn:E; [|done].
      assert (mkKey ts o ∈ tr) as Hin by (by apply Htree).
      rewrite Hlentr in Hin. by apply elem_of_nil in Hin.
    + assert (is_Some (tr !! j)) as [k Hj] by (apply lookup_lt_is_Some; lia).
      rewrite Hj. cbn [fst]. right; right. exists (offset k). split; [done|].
      assert (Hk : k ∈ tr) by (by eapply list_elem_of_lookup_2).
      assert (Hnone : none_at_or_after m t).
      { intros o' ts' Hr. apply (Hbelow o' ts' Hr). by apply Htree. }
      split; [done|].
      exists (timestamp k). split; [by apply Htree|].
      assert (retains m (offset k) (timestamp k)) as Hrk by (by apply Htree).
      split; [by apply (Hnone _ _ Hrk)|].
      intros o' ts' Hr _.
      assert (Hin : mkKey ts' o' ∈ tr) by (by apply Htree).
      pose proof (take_drop_middle _ _ _ Hj) as Hsplit.
      rewrite <- Hsplit, elem_of_app, elem_of_cons in Hin.
      rewrite drop_ge in Hin, Hsplit by lia.
      destruct Hin as [Hin|[Heq|Hin]].
      * unfold sorted in Hsort. rewrite <- Hsplit in Hsort.
        eapply StronglySorted_app_1_elem_of in Hsort;
          [|exact Hin|apply list_elem_of_here].
        unfold key_lt in Hsort; simpl in Hsort. lia.
      * rewrite <- Heq. simpl. lia.
      * by apply elem_of_nil in Hin.
Qed.

(** [NearestOffset] only ever returns offsets the index retains. *)
Lemma NearestOffset_retained m t o :
  Inv m → NearestOffset m t = (o, true) → is_Some (offset2Timestamp m !! o).
Proof.
  intros HI Hn.
  destruct (NearestOffset_policy m t HI)
    as [[_ He]|[(o' & He & ts & Hr & _)|(o' & He & _ & ts & Hr & _)]];
    rewrite Hn in He; inversion He; subst; by eexists.
Qed.

End Index.

(** ** Runs of [Add] calls *)

Section Runs.
Import Tree TreeFacts.

Lemma add_all_snoc m calls o ts :
  add_all m (calls ++ [(o, ts)])
  = match add_all m calls with
    | (m', None) => Add m' o ts
    | r => r
    end.
Proof.
  revert m. induction calls as [|[o' ts'] calls IH]; intros m; simpl.
  - by destruct (Add m o ts) as [m' [e|]].
  - destruct (Add m o' ts') as [m' [e|]]; [done|]. apply IH.
Qed.

Lemma reachable_add_all m calls m' :
  reachable m → add_all m calls = (m', None) → reachable m'.
Proof.
  revert m. induction calls as [|[o ts] calls IH]; intros m Hm; simpl.
  - by intros [= <-].
  - destruct (Add m o ts) as [m1 [e|]] eqn:E; [done|].
    apply IH. by eapply reach_add.
Qed.

(** A successful [Add] grows the index by one entry until the capacity is
    reached, and keeps it at the capacity from then on. *)
Lemma Add_count m o ts m' :
  Inv m → Add m o ts = (m', None) →
  count m' = Z.min (count m + 1) (capacity m).
Proof.
  intros HI Hadd. pose proof (Inv_Add _ _ _ _ HI Hadd) as HI'.
  apply Add_success in Hadd as (Ho & Hlast & Hc' & Hl' & Hcase).
  pose proof (inv_count m HI) as Hcnt.
  assert (Hfresh : offset2Timestamp m !! o = None).
  { destruct (offset2Timestamp m !! o) eqn:E; [|done].
    assert (is_Some (offset2Timestamp m !! o)) as Hs by eauto.
    apply (inv_dom m HI) in Hs. unfold count in *.
    destruct Hlast as [H0|H0]; lia. }
  unfold count in *.
  destruct Hcase as [(Hne & Hmap & _)|(Heq & old & Hold & _ & Hmap & _)]; rewrite Hmap.
  - rewrite map_size_insert_None by done. lia.
  - pose proof (inv_cap m HI).
    rewrite map_size_insert_None by (rewrite lookup_delete_ne by lia; done).
    rewrite map_size_delete_Some by eauto.
    assert (size (offset2Timestamp m) ≠ 0%nat) by lia. lia.
Qed.

(** After [length calls] successful calls on a fresh index of capacity [c],
    the index holds [min (length calls) c] entries and the offsets of the
    calls form one ascending run ending at [lastOffset]. *)
Lemma add_all_fresh c m0 calls m :
  NewTimestamp2Offset c = inr m0 → add_all m0 calls = (m, None) →
  Inv m ∧ capacity m = c
  ∧ count m = Z.min (Z.of_nat (length calls)) c
  ∧ ∀ (i : nat) oi tsi, calls !! i = Some (oi, tsi) →
      oi = lastOffset m - Z.of_nat (length calls) + 1 + Z.of_nat i.
Proof.
  intros Hnew. revert m.
  induction calls as [|[o ts] calls IH] using rev_ind; intros m.
  - simpl. intros [= <-]. pose proof (Inv_new _ _ Hnew) as HI.
    split; [done|]. pose proof (inv_cap _ HI) as Hcap.
    unfold NewTimestamp2Offset in Hnew. destruct (c <=? 0); [done|].
    injection Hnew as <-. unfold count. simpl in *. rewrite map_size_empty.
    split; [done|]. split; [lia|]. intros i oi tsi. by rewrite lookup_nil.
  - rewrite add_all_snoc. destruct (add_all m0 calls) as [m1 [e|]] eqn:E; [done|].
    intros Hadd. destruct (IH m1 eq_refl) as (HI1 & Hc1 & Hn1 & Hrun).
    pose proof (Inv_Add _ _ _ _ HI1 Hadd) as HI.
    pose proof (Add_count _ _ _ _ HI1 Hadd) as Hn.
    pose proof (inv_cap _ HI1) as Hcap.
    apply Add_success in Hadd as (Ho & Hlast & Hc' & Hl' & _).
    split; [done|]. split; [congruence|].
    rewrite length_app. simpl. split; [lia|].
    intros i oi tsi Hi. rewrite Hl'.
    destruct (decide (i < length calls)%nat) as [Hlt|Hge].
    + rewrite lookup_app_l in Hi by done. specialize (Hrun _ _ _ Hi).
      destruct Hlast as [H0|H0]; lia.
    + rewrite lookup_app_r in Hi by lia.
      destruct (i - length calls)%nat as [|j] eqn:Hj; simpl in Hi; [|done].
      injection Hi as <- <-. lia.
Qed.

Lemma add_all_run_accepted m first tss :
  Inv m → 0 ≤ first → (count m = 0 ∨ lastOffset m = first - 1) →
  ∃ m', add_all m (run_from first tss) = (m', None).
Proof.
  unfold run_from. revert m first.
  induction tss as [|ts tss IH]; intros m first HI Hf Hl; simpl; [eauto|].
  rewrite Z.add_0_r.
  destruct (Add_accepts m first ts HI Hf Hl) as [m1 Hadd]. rewrite Hadd.
  pose proof (Inv_Add _ _ _ _ HI Hadd) as HI1.
  apply Add_success in Hadd as (_ & _ & _ & Hl1 & _).
  destruct (IH m1 (first + 1) HI1) as [m' Hm']; [lia|right; lia|].
  exists m'. rewrite <- Hm'. f_equal. apply imap_ext. intros i x _. simpl.
  f_equal. lia.
Qed.

End Runs.

(** ** The index: the stated properties *)

Section IndexProperties.
Import Tree TreeFacts.

(** C1. For every state of the index, [NearestOffset t] returns the offset of
    the earliest retained entry whose timestamp is at or after [t], the
    smallest offset winning among equal timestamps; when there is no such
    entry it returns the offset of the greatest (timestamp, offset) retained
    entry, whose timestamp is before [t]; on an empty index it returns
    not-found.  With the entries 0 at 100ms and 1 at 500ms, the queries at
    250ms and at 600ms both return offset 1. *)
Theorem NearestOffset_nearest (m : Timestamp2Offset) (t : Time) :
  reachable m →
  ((offset2Timestamp m = ∅ ∧ NearestOffset m t = (-1, false))
   ∨ (∃ o, NearestOffset m t = (o, true) ∧ earliest_at_or_after m t o)
   ∨ (∃ o, NearestOffset m t = (o, true)
           ∧ none_at_or_after m t ∧ latest_before m t o))
  ∧ NearestOffset (test_index [(0, 100); (1, 500)]) 250 = (1, true)
  ∧ NearestOffset (test_index [(0, 100); (1, 500)]) 600 = (1, true).
Proof.
  intros Hm. split; [|split; vm_compute; reflexivity].
  by apply NearestOffset_policy, reachable_Inv.
Qed.

Lemma test_index_reachable calls :
  snd (add_all (mkT2O 2 (-1) ∅ []) calls) = None → reachable (test_index calls).
Proof.
  intros Hok. unfold test_index. simpl.
  destruct (add_all _ calls) as [m' e] eqn:E. simpl in *. subst e.
  eapply reachable_add_all; [|exact E]. by apply (reach_new 2).
Qed.

Lemma NearestOffset_nearest_witness :
  reachable (test_index [(0, 100); (1, 500)])
  ∧ ∃ o, NearestOffset (test_index [(0, 100); (1, 500)]) 250 = (o, true)
         ∧ earliest_at_or_after (test_index [(0, 100); (1, 500)]) 250 o.
Proof.
  assert (Hr : reachable (test_index [(0, 100); (1, 500)])).
  { apply test_index_reachable. vm_compute. reflexivity. }
  split; [exact Hr|].
  destruct (NearestOffset_nearest (test_index [(0, 100); (1, 500)]) 250 Hr)
    as [[[_ He]|[Hfwd|(o & He & Hnone & _)]] _].
  - vm_compute in He. discriminate He.
  - exact Hfwd.
  - exfalso. specialize (Hnone 1 500). unfold retains in Hnone.
    assert (500 < 250) by (apply Hnone; vm_compute; reflexivity). lia.
Defined.

(** C2. After any sequence of successful [Add] calls on a fresh index of
    capacity [c], the index retains exactly the most recent
    [min (number of calls) c] offsets, which are contiguous; an [Add] made
    once [c] offsets have been added evicts exactly the entry of offset
    [o - c] (from the map and from the tree), an earlier one evicts nothing;
    and after the offsets [0 .. N-1] with [N > c], [NearestOffset] returns no
    offset below [N - c].  Such runs exist: a fresh index accepts every run
    of contiguous offsets. *)
Theorem bounded_retention (c : Z) (m0 : Timestamp2Offset)
  (calls : list (Z * Time)) (o : Z) (ts : Time) (m m' : Timestamp2Offset) :
  NewTimestamp2Offset c = inr m0 →
  add_all m0 calls = (m, None) →
  Add m o ts = (m', None) →
  let N := Z.of_nat (length calls) + 1 in
  count m' = Z.min N c
  ∧ (∀ x, is_Some (offset2Timestamp m' !! x) ↔ o - Z.min N c < x ≤ o)
  ∧ (∀ (i : nat) oi tsi, calls !! i = Some (oi, tsi) → oi = o - N + 1 + Z.of_nat i)
  ∧ (∀ k, k ∈ timestamp2Offsets m' ↔ retains m' (offset k) (timestamp k))
  ∧ (N ≤ c → offset2Timestamp m' = <[o := ts]> (offset2Timestamp m))
  ∧ (c < N →
     is_Some (offset2Timestamp m !! (o - c))
     ∧ offset2Timestamp m' = <[o := ts]> (delete (o - c) (offset2Timestamp m)))
  ∧ (o = N - 1 → c < N →
     ∀ t off, NearestOffset m' t = (off, true) → N - c ≤ off)
  ∧ (∀ first tss, 0 ≤ first →
       ∃ mr, add_all m0 (run_from first tss) = (mr, None)).
Proof.
  intros Hnew Hall Hadd N.
  destruct (add_all_fresh _ _ _ _ Hnew Hall) as (HI & Hcap & Hn & Hrun).
  pose proof (Inv_Add _ _ _ _ HI Hadd) as HI'.
  pose proof (Add_count _ _ _ _ HI Hadd) as Hn'.
  pose proof (inv_cap _ HI) as Hc.
  pose proof (Add_success _ _ _ _ Hadd) as (Ho & Hlast & Hc' & Hl' & Hcase).
  assert (Hcount : count m' = Z.min N c) by (subst N; lia).
  assert (Hdom : ∀ x, is_Some (offset2Timestamp m' !! x) ↔ o - Z.min N c < x ≤ o).
  { intros x. rewrite (inv_dom _ HI'), Hl', Hcount. done. }
  split; [done|]. split; [done|]. split.
  { intros i oi tsi Hi. specialize (Hrun _ _ _ Hi).
    assert (i < length calls)%nat by (by eapply lookup_lt_Some).
    destruct Hlast as [H0|H0]; subst N; lia. }
  split; [apply (inv_tree _ HI')|]. split.
  { intros HN. destruct Hcase as [(_ & Hmap & _)|(Heq & _)]; [done|]. subst N; lia. }
  split.
  { intros HN. destruct Hcase as [(Hne & _)|(_ & old & Hold & _ & Hmap & _)].
    - subst N. pose proof (inv_count _ HI). lia.
    - rewrite <- Hcap. split; [by eexists|done]. }
  split.
  { intros HoN HN t off Hnear.
    apply (NearestOffset_retained _ _ _ HI'), Hdom in Hnear. lia. }
  intros first tss Hfirst.
  apply add_all_run_accepted; [by eapply Inv_new|done|].
  left. unfold NewTimestamp2Offset in Hnew. destruct (c <=? 0); [done|].
  injection Hnew as <-. unfold count. simpl. by rewrite map_size_empty.
Qed.

Lemma bounded_retention_witness :
  count (test_index [(0, 100); (1, 500); (2, 250)]) = 2
  ∧ NearestOffset (test_index [(0, 100); (1, 500); (2, 250)]) 0 = (2, true)
  ∧ 3 - 2 ≤ 2.
Proof.
  pose proof (bounded_retention 2 (mkT2O 2 (-1) ∅ []) [(0, 100); (1, 500)] 2 250
                (test_index [(0, 100); (1, 500)])
                (test_index [(0, 100); (1, 500); (2, 250)])
                eq_refl eq_refl eq_refl) as H.
  destruct H as (Hcount & _ & _ & _ & _ & _ & Hbound & _).
  split; [exact Hcount|]. split; [vm_compute; reflexivity|].
  apply (Hbound eq_refl eq_refl 0 2). vm_compute. reflexivity.
Defined.

(** C3. In every state, [Add o ts] fails with an out-of-order error exactly
    when [o] is negative or the index is non-empty and [o] is not one more
    than the last accepted offset (so every gap and every repeat is
    rejected); on an empty index any non-negative offset is accepted and
    becomes the baseline; and an [Add] that passes these checks on an index
    holding [capacity] entries fails with a corrupt-state error exactly when
    the entry of offset [o - capacity] is absent from the map or from the
    tree. *)
Theorem Add_rejects (m : Timestamp2Offset) (o : Z) (ts : Time) :
  (fails_with (Add m o ts) OutOfOrder
   ↔ o < 0 ∨ (count m ≠ 0 ∧ o ≠ lastOffset m + 1))
  ∧ (count m = 0 → 0 ≤ o → 0 < capacity m →
     ∃ m', Add m o ts = (m', None) ∧ lastOffset m' = o)
  ∧ (fails_with (Add m o ts) CorruptState
     ↔ 0 ≤ o ∧ (count m = 0 ∨ o = lastOffset m + 1)
       ∧ count m = capacity m ∧ evictee_absent m o).
Proof.
  unfold fails_with.
  destruct (Add_cases m o ts)
    as [(Ho & HA)|[(Ho & Hn & Hl & HA)|[(Ho & Hseq & Hn & Hold & HA)
       |[(Ho & Hseq & Hn & old & Hold & Hnin & HA)|(Ho & Hseq & Hpresent & HA)]]]];
    rewrite ?HA; cbn [snd]; (split; [|split]).
  (* a negative offset *)
  - split; [by left|]. intros _. by eexists.
  - lia.
  - split; [|lia]. by intros (e & [= <-] & He).
  (* a gap or a repeat *)
  - split; [right; split; [done|lia]|]. intros _. by eexists.
  - lia.
  - split; [|lia]. by intros (e & [= <-] & He).
  (* the entry to evict is missing from the map *)
  - split; [|lia]. by intros (e & [= <-] & He).
  - intros Hc ? ?. lia.
  - split; [intros _|intros _; by eexists].
    repeat split; [done|lia|done|by left].
  (* the entry to evict is missing from the tree *)
  - split; [|lia]. by intros (e & [= <-] & He).
  - intros Hc ? ?. lia.
  - split; [intros _|intros _; by eexists].
    repeat split; [done|lia|done|right; by exists old].
  (* the call succeeds *)
  - split; [|lia]. by intros (e & [=] & He).
  - intros Hc _ Hcap. destruct (Add m o ts) as [m' r] eqn:E. simpl in HA. subst r.
    exists m'. split; [done|]. by apply Add_success in E as (_ & _ & _ & ? & _).
  - split; [by intros (e & [=] & He)|].
    intros (_ & _ & Hc & Habs). by destruct (Hpresent Hc).
Qed.

Lemma Add_rejects_witness :
  fails_with (Add (test_index [(0, 100)]) 5 700) OutOfOrder
  ∧ fails_with (Add (test_index [(0, 100)]) 0 700) OutOfOrder
  ∧ fails_with (Add (test_index [(0, 100)]) (-1) 700) OutOfOrder
  ∧ (∃ m', Add (test_index []) 7 700 = (m', None) ∧ lastOffset m' = 7)
  ∧ fails_with (Add corrupt_index 1 700) CorruptState.
Proof.
  split; [|split; [|split; [|split]]].
  - apply (proj1 (Add_rejects (test_index [(0, 100)]) 5 700)).
    right. split; vm_compute; discriminate.
  - apply (proj1 (Add_rejects (test_index [(0, 100)]) 0 700)).
    right. split; vm_compute; discriminate.
  - apply (proj1 (Add_rejects (test_index [(0, 100)]) (-1) 700)).
    left. lia.
  - apply (proj1 (proj2 (Add_rejects (test_index []) 7 700))).
    + vm_compute. reflexivity.
    + lia.
    + vm_compute. reflexivity.
  - apply (proj2 (proj2 (Add_rejects corrupt_index 1 700))).
    split; [lia|]. split; [right; reflexivity|]. split; [vm_compute; reflexivity|].
    right. exists 100. split; [vm_compute; reflexivity|].
    simpl. apply not_elem_of_nil.
Defined.

(** C9. [Add] is atomic on failure: whenever a call returns an error (a
    negative offset, an offset out of order, or a missing entry to evict),
    the index is left exactly as it was: same map, same tree, same last
    offset.  The capacity is positive, as the constructor guarantees. *)
Theorem Add_error_atomic (m : Timestamp2Offset) (o : Z) (ts : Time) (e : T2OError) :
  0 < capacity m →
  snd (Add m o ts) = Some e →
  fst (Add m o ts) = m.
Proof.
  intros Hcap Herr.
  destruct (Add_cases m o ts)
    as [(_ & HA)|[(_ & _ & _ & HA)|[(_ & Hseq & Hn & _)
       |[(_ & Hseq & Hn & _)|(_ & _ & _ & HA)]]]].
  - by rewrite HA.
  - by rewrite HA.
  - apply (Add_full_unchanged m o ts e); [lia|done].
  - apply (Add_full_unchanged m o ts e); [lia|done].
  - congruence.
Qed.

Lemma Add_error_atomic_witness :
  fst (Add (test_index [(0, 100); (1, 500)]) 5 700) = test_index [(0, 100); (1, 500)]
  ∧ fst (Add corrupt_index 1 700) = corrupt_index.
Proof.
  split.
  - apply (Add_error_atomic _ 5 700 (ErrLastOffset 5 1)); [reflexivity|].
    vm_compute. reflexivity.
  - apply (Add_error_atomic _ 1 700 (ErrOldTimestampNotFound 100 0)); [reflexivity|].
    vm_compute. reflexivity.
Defined.

(** The constructor's guarantee is what makes [Add] atomic: on a (not
    constructible) index of capacity 0 the baseline is written before the
    eviction fails. *)
Example Add_capacity_zero_not_atomic :
  Add (mkT2O 0 (-1) ∅ []) 3 700
  = (mkT2O 0 3 ∅ [], Some (ErrOldOffsetNotFound 3)).
Proof. vm_compute. reflexivity. Qed.

End IndexProperties.

(** ** The ingestion pipeline *)

Section PipelineFacts.
Context `{JSON} `{TimeFmt}.
Variable ml_accepts : bytes → bool.

Lemma unparsable_skipped v : unparsable v → accepted_payload ml_accepts v = None.
Proof. unfold unparsable, accepted_payload. by intros ->. Qed.

Lemma lacks_timestamp_skipped v :
  lacks_timestamp v → accepted_payload ml_accepts v = None.
Proof.
  unfold accepted_payload. intros (ev & -> & Ht). simpl. by rewrite Ht.
Qed.

Lemma lacks_payload_skipped v :
  lacks_payload v → accepted_payload ml_accepts v = None.
Proof.
  unfold accepted_payload. intros (ev & -> & Hd). simpl.
  destruct (ev !! "time"%string ≫= as_string) as [s|]; simpl; [|done].
  destruct (time_Parse s); simpl; [|done]. by rewrite Hd.
Qed.

Lemma well_formed_accepted v payload :
  well_formed ml_accepts v payload → accepted_payload ml_accepts v = Some payload.
Proof.
  unfold accepted_payload.
  intros (ev & s & t & d & -> & Hs & Ht & Hd & Hm & Ha). simpl.
  rewrite Hs. simpl. rewrite Ht. simpl. rewrite Hd. simpl. rewrite Hm. simpl.
  by rewrite Ha.
Qed.

(** One turn of the loop, from a state in which log and index agree: the
    record is skipped or its payload is appended to the log and indexed; the
    turn never panics, and log and index agree afterwards. *)
Lemma process_record_in_sync dd v :
  in_sync dd →
  ∃ dd', process_record ml_accepts dd v = inr dd'
         ∧ in_sync dd'
         ∧ ml_entries (ml dd')
           = ml_entries (ml dd) ++ option_list (accepted_payload ml_accepts v).
Proof.
  intros [Hreach Hsync]. unfold process_record, accepted_payload.
  assert (Hskip : ∀ msg, ∃ dd', inr (log_msg dd msg)
                    = (inr dd' : (dumpRecordProcessor * T2OError) + dumpRecordProcessor)
                    ∧ in_sync dd'
                    ∧ ml_entries (ml dd') = ml_entries (ml dd) ++ option_list None).
  { intros msg. eexists. split; [done|]. split; [done|]. simpl. by rewrite app_nil_r. }
  destruct (json_Unmarshal (Data v)) as [ev|]; simpl; [|apply Hskip].
  destruct (ev !! "time"%string ≫= as_string) as [s|]; simpl; [|apply Hskip].
  destruct (time_Parse s) as [t|]; simpl; [|apply Hskip].
  destruct (ev !! "detail"%string) as [d|]; simpl; [|apply Hskip].
  destruct (json_Marshal d) as [b|]; simpl; [|apply Hskip].
  unfold memlog_Write. destruct (ml_accepts b); [|apply Hskip].
  set (off := Z.of_nat (length (ml_entries (ml dd)))).
  destruct (Add_accepts (t2o dd) off t) as [m' Hadd];
    [by apply reachable_Inv|lia|destruct Hsync; [by left|right; lia]|].
  rewrite Hadd. eexists. split; [done|]. simpl. split; [|done].
  split; [by eapply reach_add|]. right. cbn [t2o ml ml_entries].
  apply Add_success in Hadd as (_ & _ & _ & -> & _).
  rewrite length_app. simpl. lia.
Qed.

Lemma process_loop_in_sync dd records :
  in_sync dd →
  ∃ dd', process_loop ml_accepts dd records = inr dd'
         ∧ in_sync dd'
         ∧ ml_entries (ml dd')
           = ml_entries (ml dd) ++ omap (accepted_payload ml_accepts) records.
Proof.
  revert dd. induction records as [|v records IH]; intros dd Hsync; simpl.
  - exists dd. by rewrite app_nil_r.
  - destruct (process_record_in_sync dd v Hsync) as (dd1 & -> & Hsync1 & Hlog1).
    destruct (IH dd1 Hsync1) as (dd' & -> & Hsync' & Hlog').
    exists dd'. split; [done|]. split; [done|]. rewrite Hlog', Hlog1.
    rewrite <- app_assoc. f_equal.
    by destruct (accepted_payload ml_accepts v).
Qed.

(** Logging does not touch the log or the index. *)
Lemma in_sync_log_msg dd msg : in_sync dd → in_sync (log_msg dd msg).
Proof. done. Qed.

(** From a state in which log and index agree, [ProcessRecords] returns. *)
Lemma ProcessRecords_returns dd input :
  in_sync dd →
  ∃ dd' cp',
    ProcessRecords ml_accepts dd input = Returned dd' cp'
    ∧ in_sync dd'
    ∧ ml_entries (ml dd')
      = ml_entries (ml dd) ++ omap (accepted_payload ml_accepts) (Records input).
Proof.
  intros Hsync. unfold ProcessRecords.
  destruct (Nat.eqb_spec (length (Records input)) 0) as [Hlen|Hlen].
  - apply length_zero_iff_nil in Hlen. rewrite Hlen. simpl.
    eexists _, _. split; [done|]. by rewrite app_nil_r.
  - destruct (process_loop_in_sync dd (Records input) Hsync)
      as (dd' & -> & Hsync' & Hlog).
    destruct (CacheEntryTime input), (Checkpointer input);
      eexists _, _; (split; [done|]); by split.
Qed.

End PipelineFacts.

(** ** The unit test of the processor *)

Example test_processor_log :
  match @ProcessRecords test_JSON test_TimeFmt accept_all test_processor test_batch with
  | Returned dd _ =>
      ml_entries (ml dd) = [event "{event:1,good:true}"; event "{event:2,good:true}"]
      ∧ memlog_Range_latest (ml dd) = 1
  | Panicked _ _ _ => False
  end.
Proof. vm_compute. done. Qed.

Lemma test_processor_in_sync : in_sync test_processor.
Proof.
  split; [|by left]. by apply (reach_new 100).
Qed.

(** ** The ingestion pipeline: the stated properties *)

Section PipelineProperties.
Context `{JSON} `{TimeFmt}.
Variable ml_accepts : bytes → bool.

Lemma marked_accepted v mark :
  marked ml_accepts v mark → accepted_payload ml_accepts v = mark.
Proof.
  destruct mark as [payload|]; simpl.
  - apply well_formed_accepted.
  - intros [Hv|[Hv|Hv]];
      eauto using unparsable_skipped, lacks_timestamp_skipped, lacks_payload_skipped.
Qed.

Lemma marked_omap records marks :
  Forall2 (marked ml_accepts) records marks →
  omap (accepted_payload ml_accepts) records = omap id marks.
Proof.
  induction 1 as [|v mark vs marks Hv _ IH]; [done|]. csimpl.
  rewrite (marked_accepted _ _ Hv), IH. by destruct mark.
Qed.

(** What a call that returns did with its checkpointer. *)
Lemma ProcessRecords_committed dd input dd' cp' :
  Records input ≠ [] →
  ProcessRecords ml_accepts dd input = Returned dd' cp' →
  cp' = (fun c => Checkpoint c (last_position input)) <$> Checkpointer input
  ∧ committed input (Returned dd' cp')
    = match Checkpointer input with
      | Some _ => [last_position input]
      | None => []
      end.
Proof.
  intros Hne. unfold ProcessRecords, committed, last_position.
  destruct (Nat.eqb_spec (length (Records input)) 0) as [Hlen|Hlen];
    [by apply length_zero_iff_nil in Hlen|].
  destruct (process_loop ml_accepts dd (Records input)) as [[? ?]|dd1]; [done|].
  destruct (Checkpointer input) as [c|]; intros [= <- <-]; simpl; [|done].
  split; [done|]. by rewrite drop_app_length.
Qed.

(** C5. From a state in which log and index agree, every batch is processed
    to the end, record by record in arrival order: a record that is
    unparsable, or lacks the timestamp field, or lacks the payload field is
    skipped, and the re-encoded payload of every accepted record is appended
    to the log.  In particular a batch of one unparsable record, one without
    timestamp, one without payload and two well-formed records adds exactly
    the two re-encoded payloads, in arrival order. *)
Theorem ingestion_skip_policy (dd : dumpRecordProcessor) (input : ProcessRecordsInput) :
  in_sync dd →
  ∃ dd' cp',
    ProcessRecords ml_accepts dd input = Returned dd' cp'
    ∧ in_sync dd'
    ∧ ml_entries (ml dd')
      = ml_entries (ml dd) ++ omap (accepted_payload ml_accepts) (Records input)
    ∧ (∀ marks, Forall2 (marked ml_accepts) (Records input) marks →
         ml_entries (ml dd') = ml_entries (ml dd) ++ omap id marks)
    ∧ (∀ v1 v2 v3 v4 v5 p4 p5,
         Records input = [v1; v2; v3; v4; v5] →
         unparsable v1 → lacks_timestamp v2 → lacks_payload v3 →
         well_formed ml_accepts v4 p4 → well_formed ml_accepts v5 p5 →
         ml_entries (ml dd') = ml_entries (ml dd) ++ [p4; p5]).
Proof.
  intros Hsync.
  destruct (ProcessRecords_returns ml_accepts dd input Hsync)
    as (dd' & cp' & Hret & Hsync' & Hlog).
  exists dd', cp'. split; [done|]. split; [done|]. split; [done|].
  assert (Hmarks : ∀ marks, Forall2 (marked ml_accepts) (Records input) marks →
            ml_entries (ml dd') = ml_entries (ml dd) ++ omap id marks).
  { intros marks Hm. rewrite Hlog. f_equal. by apply marked_omap. }
  split; [done|].
  intros v1 v2 v3 v4 v5 p4 p5 Hrec H1 H2 H3 H4 H5.
  rewrite (Hmarks [None; None; None; Some p4; Some p5]); [done|].
  rewrite Hrec.
  apply Forall2_cons; split; [by left|].
  apply Forall2_cons; split; [by right; left|].
  apply Forall2_cons; split; [by right; right|].
  apply Forall2_cons; split; [done|].
  apply Forall2_cons; split; [done|]. apply Forall2_nil. done.
Qed.

(** C6, as the code has it.  A non-empty batch that is processed to the end
    commits exactly one checkpoint, at the position of its last record and
    however many records were skipped, when the batch carries a
    checkpointer; it commits none when the batch carries none.  A batch is
    processed to the end whenever log and index agree; no checkpoint is
    committed record by record, nor by a batch that panics. *)
Theorem checkpoint_once_per_batch (dd : dumpRecordProcessor) (input : ProcessRecordsInput) :
  Records input ≠ [] →
  (in_sync dd → ∃ dd' cp', ProcessRecords ml_accepts dd input = Returned dd' cp')
  ∧ (∀ dd' cp',
       ProcessRecords ml_accepts dd input = Returned dd' cp' →
       cp' = (fun c => Checkpoint c (last_position input)) <$> Checkpointer input
       ∧ committed input (Returned dd' cp')
         = match Checkpointer input with
           | Some _ => [last_position input]
           | None => []
           end)
  ∧ (∀ dd' cp' err,
       ProcessRecords ml_accepts dd input = Panicked dd' cp' err →
       committed input (Panicked dd' cp' err) = []).
Proof.
  intros Hne. split; [|split].
  - intros Hsync.
    destruct (ProcessRecords_returns ml_accepts dd input Hsync) as (dd' & cp' & Hret & _).
    eauto.
  - intros dd' cp'. by apply ProcessRecords_committed.
  - intros dd' cp' err. unfold ProcessRecords, committed.
    destruct (Nat.eqb_spec (length (Records input)) 0) as [Hlen|Hlen]; [done|].
    destruct (process_loop ml_accepts dd (Records input)) as [[? ?]|dd1].
    + intros [= <- <- <-]. simpl. destruct (Checkpointer input); [|done].
      by rewrite drop_all.
    + by destruct (Checkpointer input).
Qed.

(** C10. An empty batch is a no-op: [ProcessRecords] returns at once, leaving
    the log, the index and the logger as they were and the checkpointer
    untouched, also when the batch carries a checkpointer -- whereas a
    non-empty batch that carries one commits a checkpoint when it returns. *)
Theorem empty_batch_noop (dd : dumpRecordProcessor) (input : ProcessRecordsInput) :
  Records input = [] →
  ProcessRecords ml_accepts dd input = Returned dd (Checkpointer input)
  ∧ committed input (ProcessRecords ml_accepts dd input) = []
  ∧ (∀ input' c dd' cp',
       Records input' ≠ [] → Checkpointer input' = Some c →
       ProcessRecords ml_accepts dd input' = Returned dd' cp' →
       committed input' (Returned dd' cp') = [last_position input']).
Proof.
  intros Hempty. unfold ProcessRecords at 1 2. rewrite Hempty. simpl.
  split; [done|]. split.
  - unfold committed. simpl. destruct (Checkpointer input); [|done].
    by rewrite drop_all.
  - intros input' c dd' cp' Hne Hc Hret.
    destruct (ProcessRecords_committed _ _ _ _ Hne Hret) as [_ Hcm].
    by rewrite Hc in Hcm.
Qed.

End PipelineProperties.

Lemma ingestion_skip_policy_witness :
  ∃ dd' cp',
    @ProcessRecords test_JSON test_TimeFmt accept_all test_processor test_batch = Returned dd' cp'
    ∧ ml_entries (ml dd')
      = [event "{event:1,good:true}"; event "{event:2,good:true}"].
Proof.
  assert (Hsync : in_sync test_processor).
  { split; [by apply (reach_new 100)|left; reflexivity]. }
  destruct (@ingestion_skip_policy test_JSON test_TimeFmt accept_all test_processor test_batch Hsync)
    as (dd' & cp' & Hret & _ & _ & _ & Hfive).
  exists dd', cp'. split; [exact Hret|].
  apply (Hfive _ _ _ _ _ _ _ eq_refl).
  - vm_compute. reflexivity.
  - exists {[ "detail"%string := TObject "{}" ]}.
    split; vm_compute; reflexivity.
  - exists {[ "time"%string := TString "1970-01-01T00:00:00.000Z" ]}.
    split; vm_compute; reflexivity.
  - exists (<[ "time"%string := TString "1970-01-01T00:00:00.000Z" ]>
              {[ "detail"%string := TObject "{event:1,good:true}" ]}),
           "1970-01-01T00:00:00.000Z"%string, 0, (TObject "{event:1,good:true}").
    repeat split; vm_compute; reflexivity.
  - exists (<[ "time"%string := TString "1970-01-01T00:00:00.001Z" ]>
              {[ "detail"%string := TObject "{event:2,good:true}" ]}),
           "1970-01-01T00:00:00.001Z"%string, 1, (TObject "{event:2,good:true}").
    repeat split; vm_compute; reflexivity.
Defined.

(** The batch of the unit test is not empty, is processed to the end, and
    commits no checkpoint: it carries no checkpointer. *)
Lemma checkpoint_needs_checkpointer :
  Records test_batch ≠ []
  ∧ in_sync test_processor
  ∧ (∃ dd', @ProcessRecords test_JSON test_TimeFmt accept_all test_processor test_batch = Returned dd' None)
  ∧ committed test_batch (@ProcessRecords test_JSON test_TimeFmt accept_all test_processor test_batch) = []
  ∧ committed test_batch (@ProcessRecords test_JSON test_TimeFmt accept_all test_processor test_batch)
    ≠ [last_position test_batch].
Proof.
  split; [discriminate|]. split; [apply test_processor_in_sync|].
  split; [eexists; vm_compute; reflexivity|].
  split; [vm_compute; reflexivity|]. vm_compute. discriminate.
Qed.

Lemma checkpoint_once_per_batch_witness :
  ∃ dd' cp',
    @ProcessRecords test_JSON test_TimeFmt accept_all test_processor kcl_batch = Returned dd' cp'
    ∧ committed kcl_batch (Returned dd' cp')
      = [Some "49590338271490256608559692538361571095921575989136588898"%string].
Proof.
  assert (Hne : Records kcl_batch ≠ []) by discriminate.
  assert (Hsync : in_sync test_processor).
  { split; [by apply (reach_new 100)|left; reflexivity]. }
  destruct (@checkpoint_once_per_batch test_JSON test_TimeFmt accept_all test_processor kcl_batch Hne)
    as (Hret & Hcm & _).
  destruct (Hret Hsync) as (dd' & cp' & Hr).
  exists dd', cp'. split; [exact Hr|].
  exact (proj2 (Hcm dd' cp' Hr)).
Defined.

Lemma empty_batch_noop_witness :
  @ProcessRecords test_JSON test_TimeFmt accept_all test_processor
    (mkInput [] (Some 0) 5 0 (Some (mkCheckpointer [])))
  = Returned test_processor (Some (mkCheckpointer [])).
Proof.
  exact (proj1 (@empty_batch_noop test_JSON test_TimeFmt accept_all test_processor
                  (mkInput [] (Some 0) 5 0 (Some (mkCheckpointer []))) eq_refl)).
Defined.

(** ** The service *)

Section ServiceFacts.

Lemma shutdown_all_spec started st :
  shutdown_all started st
  = mkSys (filter (fun w => w ∉ started) (running st))
          (shutdown_calls st ++ started)
          (listen_calls st).
Proof.
  unfold shutdown_all. revert st.
  induction started as [|w ws IH]; intros st; simpl.
  - rewrite app_nil_r. destruct st as [rn sc lc]. simpl. f_equal.
    induction rn as [|x rn IHrn]; [done|].
    rewrite filter_cons_True by apply not_elem_of_nil. by f_equal.
  - rewrite IH. unfold worker_Shutdown. simpl. f_equal.
    + rewrite list_filter_filter. apply list_filter_iff.
      intros x. rewrite not_elem_of_cons. tauto.
    + by rewrite <- app_assoc.
Qed.

Lemma shutdown_all_started started sc lc :
  shutdown_all started (mkSys started sc lc) = mkSys [] (sc ++ started) lc.
Proof.
  rewrite shutdown_all_spec. simpl. f_equal.
  apply elem_of_nil_inv. intros x [Hx Hin]%list_elem_of_filter. by apply Hx.
Qed.

Lemma all_start_app env rs1 rs2 :
  all_start env (rs1 ++ rs2) ↔ all_start env rs1 ∧ all_start env rs2.
Proof.
  unfold all_start. split.
  - intros Hall. split; intros r w Hr; apply Hall; rewrite elem_of_app; auto.
  - intros [H1 H2] r w [Hr|Hr]%elem_of_app; eauto.
Qed.

(** Step 1 either starts every worker, or stops at the first worker that
    fails, having shut down the workers started before it. *)
Lemma workers_cons_Some r rs w :
  wrkr r = Some w → workers (r :: rs) = w :: workers rs.
Proof. unfold workers. csimpl. by intros ->. Qed.

Lemma workers_cons_None r rs :
  wrkr r = None → workers (r :: rs) = workers rs.
Proof. unfold workers. csimpl. by intros ->. Qed.

Lemma all_start_cons env r rs :
  (∀ w, wrkr r = Some w → worker_Start env w = None) →
  all_start env rs → all_start env (r :: rs).
Proof.
  intros Hr Hrs x y [->|Hx]%elem_of_cons Hy; [by apply Hr|by eapply Hrs].
Qed.

Lemma start_workers_spec env rs started sc lc :
  match start_workers env rs started (mkSys started sc lc) with
  | inl (st', err) =>
      ∃ pre r w post,
        rs = pre ++ r :: post ∧ wrkr r = Some w
        ∧ all_start env pre ∧ worker_Start env w = Some err
        ∧ st' = mkSys [] (sc ++ started ++ workers pre) lc
  | inr (started', st') =>
      all_start env rs
      ∧ started' = started ++ workers rs
      ∧ st' = mkSys started' sc lc
  end.
Proof.
  revert started. induction rs as [|r rs IH]; intros started; cbn [start_workers].
  - split; [by intros ? ? ?%elem_of_nil|]. unfold workers. simpl.
    by rewrite app_nil_r.
  - destruct (wrkr r) as [w|] eqn:Hw.
    + destruct (worker_Start env w) as [err|] eqn:Hs.
      * exists [], r, w, rs. rewrite shutdown_all_started. unfold workers. simpl.
        rewrite app_nil_r. repeat split; try done. by intros ? ? ?%elem_of_nil.
      * specialize (IH (started ++ [w])). cbn [running shutdown_calls listen_calls].
        destruct (start_workers env rs (started ++ [w]) _) as [[st' err]|[started' st']].
        -- destruct IH as (pre & r' & w' & post & -> & Hw' & Hpre & Herr & ->).
           exists (r :: pre), r', w', post. rewrite (workers_cons_Some _ _ _ Hw).
           rewrite <- !app_assoc. repeat split; try done.
           apply all_start_cons; [congruence|done].
        -- destruct IH as (Hall & -> & ->). rewrite (workers_cons_Some _ _ _ Hw).
           rewrite <- !app_assoc. repeat split; try done.
           apply all_start_cons; [congruence|done].
    + specialize (IH started).
      destruct (start_workers env rs started _) as [[st' err]|[started' st']].
      * destruct IH as (pre & r' & w' & post & -> & Hw' & Hpre & Herr & ->).
        exists (r :: pre), r', w', post. rewrite (workers_cons_None _ _ Hw).
        repeat split; try done. apply all_start_cons; [congruence|done].
      * destruct IH as (Hall & -> & ->). rewrite (workers_cons_None _ _ Hw).
        repeat split; try done. apply all_start_cons; [congruence|done].
Qed.

(** The three ways a run of [Start] can go, from surroundings in which no
    worker runs yet. *)
Lemma Start_cases env s order sc lc :
  (∃ pre r w post err,
      order = pre ++ r :: post ∧ wrkr r = Some w
      ∧ all_start env pre ∧ worker_Start env w = Some err
      ∧ Start env s order (mkSys [] sc lc)
        = (s, mkSys [] (sc ++ workers pre) lc, Some err))
  ∨ (all_start env order
     ∧ ∃ err, net_Listen env DefaultHost (port s) = inl err
       ∧ Start env s order (mkSys [] sc lc)
         = (s, mkSys [] (sc ++ workers order) (lc ++ [(DefaultHost, port s)]),
            Some err))
  ∨ (all_start env order
     ∧ ∃ bound, net_Listen env DefaultHost (port s) = inr bound
       ∧ Start env s order (mkSys [] sc lc)
         = (mkService (port s) (routes s) (Some bound),
            mkSys (workers order) sc (lc ++ [(DefaultHost, port s)]),
            match srv_Serve env with
            | ErrServerClosed => None
            | err => Some err
            end)).
Proof.
  unfold Start. pose proof (start_workers_spec env order [] sc lc) as Hsw.
  destruct (start_workers env order [] _) as [[st' err]|[started st']].
  - left. destruct Hsw as (pre & r & w & post & -> & Hw & Hpre & Herr & ->).
    exists pre, r, w, post, err. by repeat split.
  - right. destruct Hsw as (Hall & -> & ->). simpl.
    destruct (net_Listen env DefaultHost (port s)) as [err|bound] eqn:Hl.
    + left. split; [done|]. exists err. split; [done|].
      by rewrite shutdown_all_started.
    + right. split; [done|]. exists bound. split; [done|].
      by destruct (srv_Serve env).
Qed.

Lemma all_start_first_failure env pre r w post err pre' r' w' post' err' :
  pre ++ r :: post = pre' ++ r' :: post' →
  wrkr r = Some w → all_start env pre → worker_Start env w = Some err →
  wrkr r' = Some w' → all_start env pre' → worker_Start env w' = Some err' →
  pre = pre' ∧ err = err'.
Proof.
  revert pre'. induction pre as [|x pre IH]; intros [|x' pre'] Heq Hw Hpre Hs Hw' Hpre' Hs';
    simpl in *; simplify_eq.
  - split; [done|]. congruence.
  - exfalso. assert (worker_Start env w = None) as Hn
      by (eapply Hpre'; [apply list_elem_of_here|done]). congruence.
  - exfalso. assert (worker_Start env w' = None) as Hn
      by (eapply Hpre; [apply list_elem_of_here|done]). congruence.
  - destruct (IH pre' H0 Hw) as [-> ->]; try done.
    + intros a b Ha Hb. eapply Hpre; [by apply list_elem_of_further|done].
    + intros a b Ha Hb. eapply Hpre'; [by apply list_elem_of_further|done].
Qed.

(** Every route of a freshly constructed service starts with its log and
    its index in agreement, which is where the ingestion pipeline takes
    over. *)
Lemma new_routes_in_sync disable ros acc rs :
  (∀ p r, acc !! p = Some r → in_sync (mkProc (r_ml r) (r_t2o r) [])) →
  new_routes disable ros acc = inr rs →
  ∀ p r, rs !! p = Some r → in_sync (mkProc (r_ml r) (r_t2o r) []).
Proof.
  revert acc. induction ros as [|ro ros IH]; intros acc Hacc; cbn [new_routes].
  - by intros [= <-].
  - destruct (Capacity ro <? 0); [done|].
    destruct (NewTimestamp2Offset _) as [e|t2o0] eqn:Hnew; [done|].
    apply IH. intros p r. destruct (decide (Pattern ro = p)) as [<-|Hne].
    + rewrite lookup_insert_eq. intros [= <-]. split; simpl.
      * by eapply reach_new.
      * left. unfold NewTimestamp2Offset in Hnew. destruct (_ <=? 0); [done|].
        injection Hnew as <-. unfold count. simpl. by rewrite map_size_empty.
    + rewrite lookup_insert_ne by done. apply Hacc.
Qed.

Lemma NewService_in_sync options s p r :
  NewService options = inr s → routes s !! p = Some r →
  in_sync (mkProc (r_ml r) (r_t2o r) []).
Proof.
  unfold NewService.
  destruct (new_routes _ _ ∅) as [e|rs] eqn:Hrs; [done|]. intros [= <-]. simpl.
  eapply new_routes_in_sync; [|exact Hrs]. intros p' r'. by rewrite lookup_empty.
Qed.

End ServiceFacts.

(** ** The service: the stated properties *)

Section ServiceProperties.

(** C7, as the code has it.  [Start] rolls back a failed start-up: when a
    route's worker fails to start, [Start] shuts down every worker started
    before it and returns that failure, without trying to bind; when all
    workers start and binding the listener fails, [Start] shuts down all of
    them and returns the bind error.  So whenever [Start] returns an error,
    either no worker is left running and the service is as it was, or the
    listener had been bound and the error is the one [Serve] returned. *)
Theorem Start_rolls_back (env : StartEnv) (s : Service) (order : list route)
  (sc : list Worker) (lc : list (string * Z)) :
  (∀ pre r w post err,
     order = pre ++ r :: post → wrkr r = Some w →
     all_start env pre → worker_Start env w = Some err →
     Start env s order (mkSys [] sc lc)
     = (s, mkSys [] (sc ++ workers pre) lc, Some err))
  ∧ (∀ err,
       all_start env order → net_Listen env DefaultHost (port s) = inl err →
       Start env s order (mkSys [] sc lc)
       = (s, mkSys [] (sc ++ workers order) (lc ++ [(DefaultHost, port s)]),
          Some err))
  ∧ (∀ s' st' err,
       Start env s order (mkSys [] sc lc) = (s', st', Some err) →
       (running st' = [] ∧ s' = s)
       ∨ (∃ bound, net_Listen env DefaultHost (port s) = inr bound
                   ∧ srv_Serve env = err)).
Proof.
  split; [|split].
  - intros pre r w post err Horder Hw Hpre Herr.
    destruct (Start_cases env s order sc lc)
      as [(pre' & r' & w' & post' & err' & Ho' & Hw' & Hpre' & Herr' & HS)
         |[(Hall & _)|(Hall & _)]].
    + rewrite Horder in Ho'.
      destruct (all_start_first_failure _ _ _ _ _ _ _ _ _ _ _ Ho' Hw Hpre Herr
                  Hw' Hpre' Herr') as [-> ->]. done.
    + exfalso. assert (worker_Start env w = None) as Hn; [|congruence].
      eapply Hall; [|done]. rewrite Horder, elem_of_app, elem_of_cons. auto.
    + exfalso. assert (worker_Start env w = None) as Hn; [|congruence].
      eapply Hall; [|done]. rewrite Horder, elem_of_app, elem_of_cons. auto.
  - intros err Hall Hl.
    destruct (Start_cases env s order sc lc)
      as [(pre' & r' & w' & post' & err' & Ho' & Hw' & Hpre' & Herr' & HS)
         |[(_ & err' & Hl' & HS)|(_ & bound & Hl' & _)]].
    + exfalso. assert (worker_Start env w' = None) as Hn; [|congruence].
      eapply Hall; [|done]. rewrite Ho', elem_of_app, elem_of_cons. auto.
    + congruence.
    + congruence.
  - intros s' st' err HS.
    destruct (Start_cases env s order sc lc)
      as [(pre' & r' & w' & post' & err' & _ & _ & _ & _ & HS')
         |[(_ & err' & _ & HS')|(_ & bound & Hl' & HS')]];
      rewrite HS in HS'.
    + left. by injection HS' as -> -> _.
    + left. by injection HS' as -> -> _.
    + right. exists bound. split; [done|].
      injection HS' as _ _ Herr. destruct (srv_Serve env); congruence.
Qed.

End ServiceProperties.

Lemma Start_rolls_back_witness :
  Start foo_fails (service_of (two_routes (-1)))
    [mkRoute memlog_New (mkT2O 100000 (-1) ∅ []) (Some (mkWorker "/bar"));
     mkRoute memlog_New (mkT2O 100000 (-1) ∅ []) (Some (mkWorker "/foo"))] idle
  = (service_of (two_routes (-1)), mkSys [] [mkWorker "/bar"] [],
     Some (ErrOther "worker: stream not found"))
  ∧ Start bind_fails (service_of (two_routes (-1)))
      (range_order (service_of (two_routes (-1)))) idle
    = (service_of (two_routes (-1)),
       mkSys [] (workers (range_order (service_of (two_routes (-1))))) [(DefaultHost, 0)],
       Some (ErrOther "bind: address already in use")).
Proof.
  split.
  - apply (proj1 (Start_rolls_back foo_fails (service_of (two_routes (-1))) _ [] [])
             [mkRoute memlog_New (mkT2O 100000 (-1) ∅ []) (Some (mkWorker "/bar"))]
             (mkRoute memlog_New (mkT2O 100000 (-1) ∅ []) (Some (mkWorker "/foo")))
             (mkWorker "/foo") []).
    + reflexivity.
    + reflexivity.
    + intros r w [->|Hr%elem_of_nil]%elem_of_cons Hw; [|done].
      simpl in Hw. injection Hw as <-. vm_compute. reflexivity.
    + vm_compute. reflexivity.
  - apply (proj1 (proj2 (Start_rolls_back bind_fails (service_of (two_routes (-1)))
                           (range_order (service_of (two_routes (-1)))) [] []))).
    + intros r w _ _. reflexivity.
    + reflexivity.
Defined.

(** All workers start, the listener is bound, [Serve] fails: [Start] returns
    the error and both workers keep running. *)
Lemma Start_serve_error_leaves_workers_running :
  NewService (two_routes (-1)) = inr (service_of (two_routes (-1)))
  ∧ iteration_order (service_of (two_routes (-1)))
      (range_order (service_of (two_routes (-1))))
  ∧ ∃ s' st',
      Start serve_fails (service_of (two_routes (-1)))
        (range_order (service_of (two_routes (-1)))) idle
      = (s', st', Some (ErrOther "accept tcp: use of closed network connection"))
      ∧ length (running st') = 2%nat
      ∧ shutdown_calls st' = [].
Proof.
  split; [vm_compute; reflexivity|]. split; [by unfold iteration_order, range_order|].
  eexists _, _. split; [vm_compute; reflexivity|]. split; reflexivity.
Qed.

(** C4, as the code has it.  The configured port 0 stands for the default
    port 4444 and the configured port -1 for an ephemeral one: [NewService]
    turns 0 into 4444 and -1 into 0, any other value is kept, and [Start]
    hands that port to [net.Listen] once all workers have started.  So the
    listener is asked for a free port of the system's choice exactly when the
    configured port is -1. *)
Theorem configured_port (options : ServiceOptions) (s : Service) :
  NewService options = inr s →
  port s = (if Port options =? 0 then DefaultServicePort
            else if Port options =? -1 then 0
            else Port options)
  ∧ (Port options = 0 → port s = 4444)
  ∧ (ephemeral (port s) ↔ Port options = -1)
  ∧ (∀ env order sc lc,
       all_start env order →
       listen_calls (snd (fst (Start env s order (mkSys [] sc lc))))
       = lc ++ [(DefaultHost, port s)]).
Proof.
  unfold NewService, ephemeral. intros Hnew.
  destruct (new_routes _ _ _) as [e|rs]; [done|].
  injection Hnew as <-. cbn [port].
  split; [done|]. split; [by intros ->|]. split.
  - destruct (Z.eqb_spec (Port options) 0) as [->|H0]; [done|].
    destruct (Z.eqb_spec (Port options) (-1)) as [->|H1]; [done|]. tauto.
  - intros env order sc lc Hall.
    destruct (Start_cases env
                (mkService (if Port options =? 0 then DefaultServicePort
                            else if Port options =? -1 then 0 else Port options)
                   rs None) order sc lc)
      as [(pre & r & w & post & err & Ho & Hw & Hpre & Herr & HS)
         |[(_ & err & _ & HS)|(_ & bound & _ & HS)]].
    + exfalso. assert (worker_Start env w = None) as Hn; [|congruence].
      eapply Hall; [|done]. rewrite Ho, elem_of_app, elem_of_cons. auto.
    + cbn [port] in HS. by rewrite HS.
    + cbn [port] in HS. by rewrite HS.
Qed.

Lemma configured_port_witness :
  ephemeral (port (service_of (two_routes (-1))))
  ∧ port (service_of (two_routes 0)) = 4444
  ∧ port (service_of (two_routes 8080)) = 8080.
Proof.
  split; [|split].
  - apply (proj1 (proj2 (proj2 (configured_port (two_routes (-1)) _ eq_refl)))).
    reflexivity.
  - apply (proj1 (proj2 (configured_port (two_routes 0) _ eq_refl))). reflexivity.
  - apply (proj1 (configured_port (two_routes 8080) _ eq_refl)).
Defined.

(** Constructed with the configured port 0, the service binds 4444, not a
    port of the system's choice. *)
Lemma port_zero_is_not_ephemeral :
  Port (two_routes 0) = 0
  ∧ NewService (two_routes 0) = inr (service_of (two_routes 0))
  ∧ listen_calls
      (snd (fst (Start serve_fails (service_of (two_routes 0))
                   (range_order (service_of (two_routes 0))) idle)))
    = [(DefaultHost, 4444)]
  ∧ ¬ ephemeral (port (service_of (two_routes 0))).
Proof.
  split; [reflexivity|]. split; [vm_compute; reflexivity|].
  split; [vm_compute; reflexivity|]. vm_compute. discriminate.
Qed.

(** *** The streaming handler *)

Section HandlerProperties.
Context `{TimeFmt}.


End HandlerProperties.



(** * Further properties *)

(** ** The index, further *)

Section IndexFurther.
Import Tree TreeFacts.

(** X1. The comparison function of the tree is a total order on the keys: it
    answers -1, 0 or 1, its sign flips with its arguments, it is 0 exactly
    on equal keys, it is transitive, and it orders by timestamp first and
    by offset among equal timestamps. *)
Theorem timestamp2OffsetsKeyCmp_total_order (a b c : timestamp2OffsetsKey) :
  (timestamp2OffsetsKeyCmp a b = -1 ∨ timestamp2OffsetsKeyCmp a b = 0
   ∨ timestamp2OffsetsKeyCmp a b = 1)
  ∧ timestamp2OffsetsKeyCmp a b = - timestamp2OffsetsKeyCmp b a
  ∧ (timestamp2OffsetsKeyCmp a b = 0 ↔ a = b)
  ∧ (timestamp2OffsetsKeyCmp a b ≤ 0 → timestamp2OffsetsKeyCmp b c ≤ 0 →
     timestamp2OffsetsKeyCmp a c ≤ 0)
  ∧ (timestamp2OffsetsKeyCmp a b < 0
     ↔ timestamp a < timestamp b
       ∨ (timestamp a = timestamp b ∧ offset a < offset b)).
Proof.
  pose proof (cmp_cases a b) as Hab. pose proof (cmp_cases b a) as Hba.
  pose proof (cmp_cases b c) as Hbc. pose proof (cmp_cases a c) as Hac.
  unfold key_lt in *.
  split; [tauto|]. split; [|split; [|split]].
  - destruct Hab as [[-> ?]|[[-> ->]|[-> ?]]];
      destruct Hba as [[-> ?]|[[-> ?]|[-> ?]]]; subst; lia.
  - split; [|intros ->].
    + intros H0. destruct Hab as [[? ?]|[[? ?]|[? ?]]]; [lia|done|lia].
    + destruct Hac as [_|_].
      all: destruct (cmp_cases b b) as [[? ?]|[[? ?]|[? ?]]];
        unfold key_lt in *; try done; lia.
  - intros H1 H2. destruct Hab as [[? ?]|[[? ->]|[? ?]]]; [|done|lia].
    destruct Hbc as [[? ?]|[[? ->]|[? ?]]]; [|lia|lia].
    destruct Hac as [[? ?]|[[? ->]|[? ?]]]; lia.
  - split.
    + intros H0. destruct Hab as [[? ?]|[[? ?]|[? ?]]]; [done|lia|lia].
    + intros H0. destruct Hab as [[? ?]|[[? ->]|[? ?]]]; lia.
Qed.

(** X2. A retained entry is found by a query at its own timestamp: the answer is
    an entry of that very timestamp, at the same or a smaller offset. *)
Theorem NearestOffset_finds_retained (m : Timestamp2Offset) (o : Z) (ts : Time) :
  reachable m → retains m o ts →
  ∃ o', NearestOffset m ts = (o', true) ∧ retains m o' ts ∧ o' ≤ o.
Proof.
  intros Hm Hr.
  destruct (NearestOffset_policy m ts (reachable_Inv m Hm))
    as [[Hempty _]|[(o' & Hn & ts' & Hr' & Hge & Hmin)|(o' & _ & Hnone & _)]].
  - unfold retains in Hr. by rewrite Hempty, lookup_empty in Hr.
  - exists o'. split; [done|]. destruct (Hmin o ts Hr) as [Hlt|[-> Hle]]; [lia|lia|done].
  - specialize (Hnone o ts Hr). lia.
Qed.

Lemma Add_retains_new m o ts m' : Add m o ts = (m', None) → retains m' o ts.
Proof.
  intros (_ & _ & _ & _ & [(_ & Hmap & _)|(_ & old & _ & _ & Hmap & _)])%Add_success;
    unfold retains; rewrite Hmap; apply lookup_insert_eq.
Qed.

(** What a successful [Add] does to the retained entries. *)
Lemma Add_retains_iff m o ts m' x t :
  Inv m → Add m o ts = (m', None) →
  retains m' x t
  ↔ (x = o ∧ t = ts) ∨ (retains m x t ∧ (count m = capacity m → x ≠ o - capacity m)).
Proof.
  intros HI Hadd.
  pose proof (Add_success _ _ _ _ Hadd) as (Ho & Hlast & _ & _ & Hcase).
  assert (Hfresh : offset2Timestamp m !! o = None).
  { destruct (offset2Timestamp m !! o) eqn:E; [|done].
    assert (is_Some (offset2Timestamp m !! o)) as Hs by eauto.
    apply (inv_dom m HI) in Hs. destruct Hlast; lia. }
  unfold retains.
  destruct Hcase as [(Hne & Hmap & _)|(Heq & old & Hold & _ & Hmap & _)]; rewrite Hmap.
  - destruct (decide (x = o)) as [->|Hx].
    + rewrite lookup_insert_eq, Hfresh. split; [intros [= ->]; by left|].
      intros [[_ ->]|[? _]]; done.
    + rewrite lookup_insert_ne by done. split; [intros ?; right; by split|].
      intros [[? _]|[? _]]; done.
  - pose proof (inv_cap m HI).
    destruct (decide (x = o)) as [->|Hx].
    + rewrite lookup_insert_eq, Hfresh. split; [intros [= ->]; by left|].
      intros [[_ ->]|[? _]]; done.
    + rewrite lookup_insert_ne by done.
      destruct (decide (x = o - capacity m)) as [->|Hx'].
      * rewrite lookup_delete_eq. split; [done|]. intros [[? _]|[_ Hc]]; [done|].
        by destruct (Hc Heq).
      * rewrite lookup_delete_ne by done. split; [intros ?; right; by split|].
        intros [[? _]|[? _]]; done.
Qed.

(** X3. Insert, then look up.  After a successful [Add o ts] a query at [ts] is
    answered with an entry of timestamp [ts] at an offset not above [o]; it
    is answered with [o] itself when every entry retained before was
    older. *)
Theorem Add_then_NearestOffset (m : Timestamp2Offset) (o : Z) (ts : Time)
  (m' : Timestamp2Offset) :
  reachable m → Add m o ts = (m', None) →
  (∃ o', NearestOffset m' ts = (o', true) ∧ retains m' o' ts ∧ o' ≤ o)
  ∧ ((∀ x t, retains m x t → t < ts) → NearestOffset m' ts = (o, true)).
Proof.
  intros Hm Hadd.
  assert (Hm' : reachable m') by (by eapply reach_add).
  pose proof (Add_retains_new _ _ _ _ Hadd) as Hnew.
  destruct (NearestOffset_policy m' ts (reachable_Inv m' Hm'))
    as [[Hempty _]|[(o' & Hn & ts' & Hr' & Hge & Hmin)|(o' & _ & Hnone & _)]].
  - unfold retains in Hnew. by rewrite Hempty, lookup_empty in Hnew.
  - destruct (Hmin o ts Hnew) as [Hlt|[-> Hle]]; [lia|lia|].
    split; [by exists o'|]. intros Hold. rewrite Hn. f_equal.
    apply (Add_retains_iff _ _ _ _ o' ts (reachable_Inv m Hm) Hadd) in Hr'
      as [[-> _]|[Hr' _]]; [done|].
    specialize (Hold _ _ Hr'). lia.
  - specialize (Hnone o ts Hnew). lia.
Qed.

(** X4. The answer of [NearestOffset] moves forward with the query: for a later
    query the entry returned is the same or comes later in (timestamp,
    offset) order. *)
Theorem NearestOffset_monotone (m : Timestamp2Offset) (t1 t2 : Time)
  (o1 o2 : Z) (ts1 ts2 : Time) :
  reachable m → t1 ≤ t2 →
  NearestOffset m t1 = (o1, true) → NearestOffset m t2 = (o2, true) →
  retains m o1 ts1 → retains m o2 ts2 →
  ts1 < ts2 ∨ (ts1 = ts2 ∧ o1 ≤ o2).
Proof.
  intros Hm Ht Hn1 Hn2 Hr1 Hr2.
  pose proof (reachable_Inv m Hm) as HI.
  assert (Hpol : ∀ t o, NearestOffset m t = (o, true) →
            earliest_at_or_after m t o ∨ (none_at_or_after m t ∧ latest_before m t o)).
  { intros t o Hn.
    destruct (NearestOffset_policy m t HI) as [[_ He]|[(x & Hx & E)|(x & Hx & L)]];
      rewrite Hn in *; [done|injection Hx as <-; by left|injection Hx as <-; by right]. }
  assert (Hfun : ∀ o t t', retains m o t → retains m o t' → t = t').
  { unfold retains. intros o t t' H1 H2. congruence. }
  destruct (Hpol t1 o1 Hn1) as [(s1 & Hs1 & Hge1 & Hmin1)|[Hnone1 (s1 & Hs1 & Hlt1 & Hmax1)]];
    rewrite <- (Hfun _ _ _ Hr1 Hs1) in *;
    destruct (Hpol t2 o2 Hn2) as [(s2 & Hs2 & Hge2 & Hmin2)|[Hnone2 (s2 & Hs2 & Hlt2 & Hmax2)]];
    rewrite <- (Hfun _ _ _ Hr2 Hs2) in *.
  - apply (Hmin1 o2 ts2); [done|lia].
  - apply (Hmax2 o1 ts1); [done|]. by apply (Hnone2 o1).
  - specialize (Hnone1 o2 ts2 Hr2). lia.
  - apply (Hmax2 o1 ts1); [done|]. by apply (Hnone2 o1).
Qed.

(** X5. A query finds an offset exactly when the index is not empty, and the
    index is never empty again after an [Add] has succeeded. *)
Theorem NearestOffset_found_iff (m : Timestamp2Offset) (t : Time) :
  reachable m →
  (snd (NearestOffset m t) = true ↔ offset2Timestamp m ≠ ∅)
  ∧ (snd (NearestOffset m t) = false → fst (NearestOffset m t) = -1)
  ∧ (∀ o ts m', Add m o ts = (m', None) →
       ∀ calls m'', add_all m' calls = (m'', None) →
         snd (NearestOffset m'' t) = true).
Proof.
  intros Hm. pose proof (reachable_Inv m Hm) as HI.
  assert (Hiff : ∀ m0, reachable m0 →
            (snd (NearestOffset m0 t) = true ↔ offset2Timestamp m0 ≠ ∅)
            ∧ (snd (NearestOffset m0 t) = false → fst (NearestOffset m0 t) = -1)).
  { intros m0 Hm0.
    destruct (NearestOffset_policy m0 t (reachable_Inv m0 Hm0))
      as [[Hempty ->]|[(o' & -> & ts' & Hr' & _)|(o' & -> & _ & ts' & Hr' & _)]];
      simpl; (split; [|done]).
    - split; [done|]. by intros [].
    - split; [|done]. intros _ Hempty. unfold retains in Hr'.
      by rewrite Hempty, lookup_empty in Hr'.
    - split; [|done]. intros _ Hempty. unfold retains in Hr'.
      by rewrite Hempty, lookup_empty in Hr'. }
  split; [apply (Hiff m Hm)|]. split; [apply (Hiff m Hm)|].
  intros o ts m' Hadd calls m'' Hall.
  assert (Hm' : reachable m') by (by eapply reach_add).
  assert (Hcnt : ∀ calls m1 m2, Inv m1 → count m1 ≠ 0 →
            add_all m1 calls = (m2, None) → Inv m2 ∧ count m2 ≠ 0).
  { clear. induction calls as [|[o ts] calls IH]; intros m1 m2 HI Hc; simpl.
    - by intros [= <-].
    - destruct (Add m1 o ts) as [m3 [e|]] eqn:E; [done|].
      apply IH; [by eapply Inv_Add|].
      pose proof (Add_count _ _ _ _ HI E). pose proof (inv_cap _ HI).
      unfold count in *. lia. }
  assert (count m' ≠ 0).
  { pose proof (Add_count _ _ _ _ HI Hadd). pose proof (inv_cap _ HI).
    unfold count in *. lia. }
  destruct (Hcnt calls m' m'' (reachable_Inv m' Hm')) as [_ Hc'']; [done..|].
  apply (Hiff m''); [by eapply reachable_add_all|].
  intros Hempty. apply Hc''. unfold count. by rewrite Hempty, map_size_empty.
Qed.

(** X6. On an index in a state it can reach, [Add] never reports a corrupt
    state: it succeeds exactly on a non-negative offset that starts or
    continues the run, and its only failures are the out-of-order ones. *)
Theorem Add_reachable_accepts (m : Timestamp2Offset) (o : Z) (ts : Time) :
  reachable m →
  (snd (Add m o ts) = None ↔ 0 ≤ o ∧ (count m = 0 ∨ o = lastOffset m + 1))
  ∧ ¬ fails_with (Add m o ts) CorruptState
  ∧ (∀ e, snd (Add m o ts) = Some e → error_class e = OutOfOrder).
Proof.
  intros Hm. pose proof (reachable_Inv m Hm) as HI.
  assert (Hiff : snd (Add m o ts) = None ↔ 0 ≤ o ∧ (count m = 0 ∨ o = lastOffset m + 1)).
  { split.
    - intros Hok. destruct (Add m o ts) as [m' r] eqn:E. simpl in Hok. subst r.
      apply Add_success in E as (? & ? & _). split; [done|lia].
    - intros [Ho Hseq]. destruct (Add_accepts m o ts HI Ho) as [m' ->]; [lia|done]. }
  split; [done|].
  assert (Hclass : ∀ e, snd (Add m o ts) = Some e → error_class e = OutOfOrder).
  { intros e He.
    destruct (Add_cases m o ts)
      as [(_ & HA)|[(_ & _ & _ & HA)|[(Ho & Hseq & _ & _ & HA)
         |[(Ho & Hseq & _ & old & _ & _ & HA)|(_ & _ & _ & HA)]]]].
    - rewrite HA in He. by injection He as <-.
    - rewrite HA in He. by injection He as <-.
    - assert (snd (Add m o ts) = None) as Hn by (apply Hiff; split; [done|lia]).
      congruence.
    - assert (snd (Add m o ts) = None) as Hn by (apply Hiff; split; [done|lia]).
      congruence.
    - congruence. }
  split; [|done]. intros (e & He & Hc). rewrite (Hclass e He) in Hc. done.
Qed.

(** X7. [Add] never rewrites a retained entry: after a successful [Add o ts] the
    index retains the new entry, every old entry but the one evicted (offset
    [o - capacity], and only when the index was full), and nothing else. *)
Theorem Add_keeps_entries (m : Timestamp2Offset) (o : Z) (ts : Time)
  (m' : Timestamp2Offset) (x : Z) (t : Time) :
  reachable m → Add m o ts = (m', None) →
  (retains m' x t
   ↔ (x = o ∧ t = ts)
     ∨ (retains m x t ∧ (count m = capacity m → x ≠ o - capacity m)))
  ∧ capacity m' = capacity m.
Proof.
  intros Hm Hadd. split.
  - by apply Add_retains_iff; [apply reachable_Inv|].
  - by apply Add_success in Hadd as (_ & _ & ? & _).
Qed.

End IndexFurther.

Section RunFacts.

Lemma add_all_app m calls1 calls2 :
  add_all m (calls1 ++ calls2)
  = match add_all m calls1 with
    | (m1, None) => add_all m1 calls2
    | r => r
    end.
Proof.
  revert m. induction calls1 as [|[o ts] calls1 IH]; intros m; simpl; [done|].
  destruct (Add m o ts) as [m1 [e|]]; [done|]. apply IH.
Qed.

Lemma add_all_Inv m calls m' : Inv m → add_all m calls = (m', None) → Inv m'.
Proof.
  revert m. induction calls as [|[o ts] calls IH]; intros m HI; simpl.
  - by intros [= <-].
  - destruct (Add m o ts) as [m1 [e|]] eqn:E; [done|]. apply IH. by eapply Inv_Add.
Qed.

Lemma add_all_nonempty m calls m' :
  Inv m → count m ≠ 0 → add_all m calls = (m', None) → Inv m' ∧ count m' ≠ 0.
Proof.
  revert m. induction calls as [|[o ts] calls IH]; intros m HI Hc; simpl.
  - by intros [= <-].
  - destruct (Add m o ts) as [m1 [e|]] eqn:E; [done|].
    apply IH; [by eapply Inv_Add|].
    pose proof (Add_count _ _ _ _ HI E). pose proof (inv_cap _ HI).
    unfold count in *. lia.
Qed.

(** After a run of successful [Add] calls, the entries of the run that lie
    within the last [capacity] offsets are retained with their timestamps. *)
Lemma add_all_retains m calls m' o ts :
  Inv m → add_all m calls = (m', None) → (o, ts) ∈ calls →
  lastOffset m' - capacity m' < o → retains m' o ts.
Proof.
  intros HI. revert m'.
  induction calls as [|[o2 ts2] calls IH] using rev_ind; intros m' Hall Hin Hwin.
  - by apply elem_of_nil in Hin.
  - rewrite add_all_snoc in Hall.
    destruct (add_all m calls) as [m1 [e|]] eqn:E; [done|].
    pose proof (add_all_Inv _ _ _ HI E) as HI1.
    pose proof (Add_success _ _ _ _ Hall) as (Ho2 & Hlast & Hc' & Hl' & _).
    apply elem_of_app in Hin as [Hin|Hin%list_elem_of_singleton].
    + assert (Hr1 : retains m1 o ts).
      { apply IH; [done|done|].
        destruct calls as [|c0 calls0]; [by apply elem_of_nil in Hin|].
        assert (count m1 ≠ 0).
        { simpl in E. destruct c0 as [o0 ts0].
          destruct (Add m o0 ts0) as [m0 [e|]] eqn:E0; [done|].
          pose proof (Add_count _ _ _ _ HI E0). pose proof (inv_cap _ HI).
          assert (Hc0 : count m0 ≠ 0) by (unfold count in *; lia).
          by destruct (add_all_nonempty m0 calls0 m1 (Inv_Add _ _ _ _ HI E0) Hc0 E). }
        destruct Hlast; [done|]. lia. }
      apply (Add_retains_iff _ _ _ _ o ts HI1 Hall). right. split; [done|].
      intros _. lia.
    + injection Hin as -> ->. by eapply Add_retains_new.
Qed.

End RunFacts.

(** ** The ingestion pipeline, further *)

Section PipelineFurther.
Context `{JSON} `{TimeFmt}.
Variable ml_accepts : bytes → bool.

Lemma accepted_entry_payload v :
  fst <$> accepted_entry ml_accepts v = accepted_payload ml_accepts v.
Proof.
  unfold accepted_entry, accepted_payload.
  destruct (json_Unmarshal (Data v)) as [ev|]; simpl; [|done].
  destruct (ev !! "time"%string ≫= as_string) as [s|]; simpl; [|done].
  destruct (time_Parse s) as [t|]; simpl; [|done].
  destruct (ev !! "detail"%string) as [d|]; simpl; [|done].
  destruct (json_Marshal d) as [b|]; simpl; [|done].
  by destruct (ml_accepts b).
Qed.

Lemma omap_accepted_entry_payload records :
  (omap (accepted_entry ml_accepts) records).*1
  = omap (accepted_payload ml_accepts) records.
Proof.
  induction records as [|v records IH]; [done|]. csimpl.
  rewrite <- accepted_entry_payload.
  destruct (accepted_entry ml_accepts v) as [[b t]|]; csimpl; by rewrite IH.
Qed.

(** One turn of the loop, whatever the state: a skipped record changes
    neither log nor index; an accepted one is appended to the log and then
    handed to the index under the offset the log gave it, and the turn
    panics exactly when the index refuses it. *)
Lemma process_record_cases dd v :
  match accepted_entry ml_accepts v with
  | None =>
      ∃ dd', process_record ml_accepts dd v = inr dd'
             ∧ ml dd' = ml dd ∧ t2o dd' = t2o dd
  | Some (payload, ts) =>
      let off := Z.of_nat (length (ml_entries (ml dd))) in
      match Add (t2o dd) off ts with
      | (t2o', None) =>
          process_record ml_accepts dd v
          = inr (mkProc (mkLog (ml_entries (ml dd) ++ [payload])) t2o' (logger dd))
      | (t2o', Some err) =>
          process_record ml_accepts dd v
          = inl (mkProc (mkLog (ml_entries (ml dd) ++ [payload])) t2o'
                   (logger dd ++ [ErrorIncorrectUsage err]), err)
      end
  end.
Proof.
  unfold accepted_entry, process_record.
  destruct (json_Unmarshal (Data v)) as [ev|]; simpl; [|by eexists].
  destruct (ev !! "time"%string ≫= as_string) as [s|]; simpl; [|by eexists].
  destruct (time_Parse s) as [t|]; simpl; [|by eexists].
  destruct (ev !! "detail"%string) as [d|]; simpl; [|by eexists].
  destruct (json_Marshal d) as [b|]; simpl; [|by eexists].
  unfold memlog_Write. destruct (ml_accepts b); [|by eexists].
  by destruct (Add _ _ _) as [t2o' [e|]].
Qed.

Lemma process_loop_app dd records1 records2 :
  process_loop ml_accepts dd (records1 ++ records2)
  = match process_loop ml_accepts dd records1 with
    | inl p => inl p
    | inr dd1 => process_loop ml_accepts dd1 records2
    end.
Proof.
  revert dd. induction records1 as [|v records1 IH]; intros dd; simpl; [done|].
  destruct (process_record ml_accepts dd v) as [p|dd1]; [done|]. apply IH.
Qed.

Lemma index_calls_cons first e entries :
  index_calls first (e :: entries)
  = (Z.of_nat first, snd e) :: index_calls (S first) entries.
Proof.
  unfold index_calls. simpl. rewrite Nat.add_0_r. f_equal.
  apply imap_ext. intros i x _. simpl. do 2 f_equal. lia.
Qed.

Lemma omap_cons_match {A B} (f : A → option B) (x : A) (xs : list A) :
  omap f (x :: xs) = match f x with Some y => y :: omap f xs | None => omap f xs end.
Proof. done. Qed.

(** The loop, whatever the state.  If it runs to the end, the log has
    gained the accepted payloads and the index has taken the matching [Add]
    calls.  If it panics, it does so at an accepted record whose payload is
    already in the log and which the index refused. *)
Lemma process_loop_cases dd records :
  match process_loop ml_accepts dd records with
  | inr dd' =>
      ml_entries (ml dd')
      = ml_entries (ml dd) ++ omap (accepted_payload ml_accepts) records
      ∧ add_all (t2o dd)
          (index_calls (length (ml_entries (ml dd)))
             (omap (accepted_entry ml_accepts) records))
        = (t2o dd', None)
  | inl (dd', err) =>
      ∃ pre v post payload ts,
        records = pre ++ v :: post
        ∧ accepted_entry ml_accepts v = Some (payload, ts)
        ∧ ml_entries (ml dd')
          = ml_entries (ml dd) ++ omap (accepted_payload ml_accepts) pre ++ [payload]
        ∧ last (logger dd') = Some (ErrorIncorrectUsage err)
        ∧ add_all (t2o dd)
            (index_calls (length (ml_entries (ml dd)))
               (omap (accepted_entry ml_accepts) (pre ++ [v])))
          = (t2o dd', Some err)
  end.
Proof.
  revert dd. induction records as [|v records IH]; intros dd; cbn [process_loop].
  - simpl. by rewrite app_nil_r.
  - pose proof (process_record_cases dd v) as Hv.
    pose proof (accepted_entry_payload v) as Hp.
    rewrite !omap_cons_match.
    destruct (accepted_entry ml_accepts v) as [[payload ts]|] eqn:Hacc.
    + simpl in Hv, Hp. rewrite <- Hp, index_calls_cons. cbn [add_all snd].
      destruct (Add (t2o dd) _ ts) as [t2o' [e|]] eqn:Hadd; rewrite Hv.
      * exists [], v, records, payload, ts.
        rewrite !app_nil_l, !omap_cons_match, Hacc, index_calls_cons.
        cbn [add_all snd omap list_omap]. rewrite Hadd.
        cbn [ml t2o logger ml_entries].
        repeat split; try done. by rewrite last_snoc.
      * specialize (IH (mkProc (mkLog (ml_entries (ml dd) ++ [payload])) t2o' (logger dd))).
        cbn [ml t2o ml_entries] in IH.
        rewrite length_app in IH. cbn [length] in IH.
        replace (length (ml_entries (ml dd)) + 1)%nat
          with (S (length (ml_entries (ml dd)))) in IH by lia.
        destruct (process_loop ml_accepts _ records) as [[dd' err]|dd'].
        -- destruct IH as (pre & v' & post & payload' & ts' & -> & Hacc' & Hlog & Hlast & Hall).
           exists (v :: pre), v', post, payload', ts'.
           rewrite <- !app_comm_cons, !omap_cons_match, Hacc, <- Hp, index_calls_cons.
           cbn [add_all snd]. rewrite Hadd.
           repeat split; try done. by rewrite Hlog, <- !app_assoc.
        -- destruct IH as (Hlog & Hall).
           split; [by rewrite Hlog, <- app_assoc|done].
    + destruct Hv as (dd1 & -> & Hml & Ht). simpl in Hp. rewrite <- Hp.
      specialize (IH dd1). rewrite Hml, Ht in IH.
      destruct (process_loop ml_accepts dd1 records) as [[dd' err]|dd']; [|done].
      destruct IH as (pre & v' & post & payload' & ts' & -> & Hacc' & Hlog & Hlast & Hall).
      exists (v :: pre), v', post, payload', ts'.
      rewrite <- !app_comm_cons, !omap_cons_match, Hacc, <- Hp.
      by repeat split.
Qed.

End PipelineFurther.

Section PipelineFurther2.
Context `{JSON} `{TimeFmt}.
Variable ml_accepts : bytes → bool.

Lemma index_calls_app first entries1 entries2 :
  index_calls first (entries1 ++ entries2)
  = index_calls first entries1 ++ index_calls (first + length entries1) entries2.
Proof.
  unfold index_calls. rewrite imap_app. f_equal.
  apply imap_ext. intros i x _. simpl. do 2 f_equal. lia.
Qed.

Lemma index_calls_lookup first entries i payload ts :
  entries !! i = Some (payload, ts) →
  (Z.of_nat (first + i), ts) ∈ index_calls first entries.
Proof.
  intros Hi. unfold index_calls. apply list_elem_of_lookup. exists i.
  by rewrite list_lookup_imap, Hi.
Qed.

Lemma add_all_lastOffset m calls o ts m' :
  add_all m (calls ++ [(o, ts)]) = (m', None) → lastOffset m' = o.
Proof.
  rewrite add_all_snoc. destruct (add_all m calls) as [m1 [e|]]; [done|].
  by intros (_ & _ & _ & ? & _)%Add_success.
Qed.

(** The log and the index a call leaves behind are those its loop leaves
    behind. *)
Lemma ProcessRecords_loop dd input dd' cp' :
  ProcessRecords ml_accepts dd input = Returned dd' cp' →
  ∃ dd0, process_loop ml_accepts dd (Records input) = inr dd0
         ∧ ml dd' = ml dd0 ∧ t2o dd' = t2o dd0.
Proof.
  unfold ProcessRecords.
  destruct (Nat.eqb_spec (length (Records input)) 0) as [Hlen|Hlen].
  - apply length_zero_iff_nil in Hlen. rewrite Hlen. intros [= <- _]. by exists dd.
  - destruct (process_loop ml_accepts dd (Records input)) as [[? ?]|dd0]; [done|].
    exists dd0. split; [done|].
    destruct (CacheEntryTime input), (Checkpointer input); by injection H1 as <- _.
Qed.

Lemma ProcessRecords_panic_loop dd input dd' cp' err :
  ProcessRecords ml_accepts dd input = Panicked dd' cp' err →
  process_loop ml_accepts dd (Records input) = inl (dd', err)
  ∧ cp' = Checkpointer input.
Proof.
  unfold ProcessRecords.
  destruct (length (Records input) =? 0)%nat; [done|].
  destruct (process_loop ml_accepts dd (Records input)) as [[dd0 e]|dd0].
  - by intros [= <- <- <-].
  - by destruct (Checkpointer input).
Qed.

Lemma Memlog_eq (l1 l2 : Memlog) : ml_entries l1 = ml_entries l2 → l1 = l2.
Proof. destruct l1, l2. simpl. by intros ->. Qed.

(** X8. Batches compose: two batches handed in one after the other leave the
    log and the index exactly as the one batch of all their records does. *)
Theorem batches_compose (dd : dumpRecordProcessor) (b1 b2 b12 : ProcessRecordsInput) :
  in_sync dd →
  Records b12 = Records b1 ++ Records b2 →
  ∃ dd1 cp1 dd2 cp2 dd12 cp12,
    ProcessRecords ml_accepts dd b1 = Returned dd1 cp1
    ∧ ProcessRecords ml_accepts dd1 b2 = Returned dd2 cp2
    ∧ ProcessRecords ml_accepts dd b12 = Returned dd12 cp12
    ∧ ml dd2 = ml dd12 ∧ t2o dd2 = t2o dd12.
Proof.
  intros Hsync H12.
  destruct (ProcessRecords_returns ml_accepts dd b1 Hsync) as (dd1 & cp1 & Hr1 & Hsync1 & _).
  destruct (ProcessRecords_returns ml_accepts dd1 b2 Hsync1) as (dd2 & cp2 & Hr2 & _ & _).
  destruct (ProcessRecords_returns ml_accepts dd b12 Hsync) as (dd12 & cp12 & Hr12 & _ & _).
  exists dd1, cp1, dd2, cp2, dd12, cp12. split; [done|]. split; [done|]. split; [done|].
  destruct (ProcessRecords_loop _ _ _ _ Hr1) as (e1 & Hl1 & Hm1 & Ht1).
  destruct (ProcessRecords_loop _ _ _ _ Hr2) as (e2 & Hl2 & Hm2 & Ht2).
  destruct (ProcessRecords_loop _ _ _ _ Hr12) as (e12 & Hl12 & Hm12 & Ht12).
  pose proof (process_loop_cases ml_accepts dd (Records b1)) as C1. rewrite Hl1 in C1.
  pose proof (process_loop_cases ml_accepts dd1 (Records b2)) as C2. rewrite Hl2 in C2.
  pose proof (process_loop_cases ml_accepts dd (Records b12)) as C12. rewrite Hl12 in C12.
  destruct C1 as [L1 A1], C2 as [L2 A2], C12 as [L12 A12].
  rewrite Hm2, Hm12, Ht2, Ht12. rewrite Hm1, Ht1 in *.
  rewrite H12, !omap_app in *.
  split.
  - apply Memlog_eq. by rewrite L2, L1, L12, app_assoc.
  - rewrite index_calls_app, add_all_app, A1 in A12.
    rewrite L1, length_app, <- omap_accepted_entry_payload, length_fmap in A2.
    rewrite A2 in A12. by injection A12.
Qed.

(** X9. The index follows the log.  After a batch, the index has taken one [Add]
    per accepted record, under the offset the log gave to its payload (the
    payload's place in the history of the writes; whether the log still holds
    it is the log's own matter); and as long as the record is among the last
    [capacity] records written, the index retains it with its timestamp and
    answers a query at that timestamp with an offset not above it. *)
Theorem index_follows_log (dd : dumpRecordProcessor) (input : ProcessRecordsInput) :
  in_sync dd →
  ∃ dd' cp',
    ProcessRecords ml_accepts dd input = Returned dd' cp'
    ∧ add_all (t2o dd)
        (index_calls (length (ml_entries (ml dd)))
           (omap (accepted_entry ml_accepts) (Records input)))
      = (t2o dd', None)
    ∧ ∀ (i : nat) payload ts,
        omap (accepted_entry ml_accepts) (Records input) !! i = Some (payload, ts) →
        let off := Z.of_nat (length (ml_entries (ml dd)) + i) in
        ml_entries (ml dd') !! (length (ml_entries (ml dd)) + i)%nat = Some payload
        ∧ (memlog_Range_latest (ml dd') - capacity (t2o dd) < off →
           retains (t2o dd') off ts
           ∧ ∃ o', NearestOffset (t2o dd') ts = (o', true) ∧ o' ≤ off).
Proof.
  intros Hsync.
  destruct (ProcessRecords_returns ml_accepts dd input Hsync)
    as (dd' & cp' & Hret & Hsync' & Hlog).
  exists dd', cp'. split; [done|].
  destruct (ProcessRecords_loop _ _ _ _ Hret) as (dd0 & Hloop & Hm0 & Ht0).
  pose proof (process_loop_cases ml_accepts dd (Records input)) as Hc.
  rewrite Hloop in Hc. destruct Hc as [_ Hall]. rewrite <- Ht0 in Hall.
  split; [done|]. intros i payload ts Hi off.
  assert (Hpay : omap (accepted_payload ml_accepts) (Records input) !! i = Some payload).
  { rewrite <- omap_accepted_entry_payload. by rewrite list_lookup_fmap, Hi. }
  assert (Hlens : length (omap (accepted_payload ml_accepts) (Records input))
                  = length (omap (accepted_entry ml_accepts) (Records input))).
  { by rewrite <- omap_accepted_entry_payload, length_fmap. }
  remember (omap (accepted_entry ml_accepts) (Records input)) as acc eqn:Hacc.
  set (n0 := length (ml_entries (ml dd))) in *.
  assert (Hlen : (i < length acc)%nat) by (by eapply lookup_lt_Some).
  split.
  - rewrite Hlog, lookup_app_r by (fold n0; lia).
    fold n0. by replace (n0 + i - n0)%nat with i by lia.
  - intros Hwin.
    destruct Hsync as [Hreach _]. pose proof (reachable_Inv _ Hreach) as HI.
    assert (Hreach' : reachable (t2o dd')) by (by eapply reachable_add_all).
    assert (Hcap : capacity (t2o dd') = capacity (t2o dd)).
    { clear -Hall. revert Hall. generalize (index_calls n0 acc), (t2o dd).
      intros calls. induction calls as [|[o t] calls IH]; intros m0; simpl.
      - by intros [= <-].
      - destruct (Add m0 o t) as [m1 [e|]] eqn:E; [done|]. intros Hm.
        rewrite (IH _ Hm). by apply Add_success in E as (_ & _ & ? & _). }
    assert (Hlast : lastOffset (t2o dd') = memlog_Range_latest (ml dd')).
    { destruct acc as [|e acc0 _] using rev_ind; [simpl in Hlen; lia|].
      rewrite index_calls_app in Hall. cbn [index_calls imap] in Hall.
      apply add_all_lastOffset in Hall. rewrite Hall.
      unfold memlog_Range_latest. rewrite Hlog, length_app, Hlens.
      fold n0. rewrite length_app. simpl. lia. }
    assert (Hr : retains (t2o dd') off ts).
    { eapply add_all_retains; [exact HI|exact Hall| |].
      - by eapply index_calls_lookup.
      - rewrite Hlast, Hcap. done. }
    split; [done|].
    destruct (NearestOffset_policy (t2o dd') ts (reachable_Inv _ Hreach'))
      as [[Hempty _]|[(o' & Hn & ts' & Hr' & Hge & Hmin)|(o' & _ & Hnone & _)]].
    + unfold retains in Hr. by rewrite Hempty, lookup_empty in Hr.
    + exists o'. split; [done|]. destruct (Hmin off ts Hr) as [?|[_ ?]]; lia.
    + specialize (Hnone off ts Hr). lia.
Qed.

(** X10. When the index refuses an offset, [ProcessRecords] panics in the middle
    of the batch: the payload of the record it stopped at is already in the
    log, the refusal is the last line logged, the records after it are not
    looked at, and no checkpoint is committed.  This only happens from a
    state in which log and index had come apart. *)
Theorem panic_leaves_log_ahead (dd : dumpRecordProcessor) (input : ProcessRecordsInput)
  (dd' : dumpRecordProcessor) (cp' : option Checkpointer_) (err : T2OError) :
  ProcessRecords ml_accepts dd input = Panicked dd' cp' err →
  cp' = Checkpointer input
  ∧ ¬ in_sync dd
  ∧ last (logger dd') = Some (ErrorIncorrectUsage err)
  ∧ ∃ pre v post payload ts,
      Records input = pre ++ v :: post
      ∧ accepted_entry ml_accepts v = Some (payload, ts)
      ∧ ml_entries (ml dd')
        = ml_entries (ml dd) ++ omap (accepted_payload ml_accepts) pre ++ [payload]
      ∧ add_all (t2o dd)
          (index_calls (length (ml_entries (ml dd)))
             (omap (accepted_entry ml_accepts) (pre ++ [v])))
        = (t2o dd', Some err).
Proof.
  intros Hp. destruct (ProcessRecords_panic_loop _ _ _ _ _ Hp) as [Hloop ->].
  split; [done|]. split.
  { intros Hsync.
    destruct (ProcessRecords_returns ml_accepts dd input Hsync) as (? & ? & Hr & _).
    congruence. }
  pose proof (process_loop_cases ml_accepts dd (Records input)) as Hc.
  rewrite Hloop in Hc.
  destruct Hc as (pre & v & post & payload & ts & Hrec & Hacc & Hlog & Hlast & Hall).
  split; [done|]. by exists pre, v, post, payload, ts.
Qed.

Lemma batch_positions_cons input batches :
  batch_positions (input :: batches)
  = (if decide (Records input = []) then [] else [last_position input])
    ++ batch_positions batches.
Proof.
  unfold batch_positions. destruct (decide (Records input = [])) as [He|Hne].
  - by rewrite filter_cons_False by (by intros ?).
  - by rewrite filter_cons_True by done.
Qed.

(** X11. The life of a processor.  Handed the batches of a shard one after the
    other with the shard's checkpointer, the processor takes them all, adds
    the accepted payloads of all of them to the log in order, and commits
    one checkpoint per non-empty batch, in order; a [Shutdown] for
    [TERMINATE] then adds the nil marker, a [Shutdown] for another reason
    adds nothing, and a [Shutdown] for [TERMINATE] without a checkpointer
    panics. *)
Theorem processor_life (dd : dumpRecordProcessor) (c : Checkpointer_)
  (batches : list ProcessRecordsInput) :
  in_sync dd →
  ∃ dd' c',
    run_batches ml_accepts dd c batches = Returned dd' (Some c')
    ∧ in_sync dd'
    ∧ checkpoints c' = checkpoints c ++ batch_positions batches
    ∧ ml_entries (ml dd')
      = ml_entries (ml dd)
        ++ omap (accepted_payload ml_accepts) (concat (Records <$> batches))
    ∧ snd (Shutdown (mkShutdownInput TERMINATE (Some c')))
      = ShutdownReturned
          (Some (mkCheckpointer (checkpoints c ++ batch_positions batches ++ [None])))
    ∧ (∀ reason, reason ≠ TERMINATE →
         snd (Shutdown (mkShutdownInput reason (Some c'))) = ShutdownReturned (Some c'))
    ∧ snd (Shutdown (mkShutdownInput TERMINATE None)) = ShutdownPanicked.
Proof.
  intros Hsync.
  assert (Hrun : ∃ dd' c',
    run_batches ml_accepts dd c batches = Returned dd' (Some c')
    ∧ in_sync dd'
    ∧ checkpoints c' = checkpoints c ++ batch_positions batches
    ∧ ml_entries (ml dd')
      = ml_entries (ml dd)
        ++ omap (accepted_payload ml_accepts) (concat (Records <$> batches))).
  { revert dd c Hsync. induction batches as [|input batches IH]; intros dd c Hsync.
    - exists dd, c. simpl. unfold batch_positions. simpl. by rewrite !app_nil_r.
    - cbn [run_batches].
      set (input' := mkInput (Records input) (CacheEntryTime input) (CacheExitTime input)
                       (MillisBehindLatest input) (Some c)).
      destruct (ProcessRecords_returns ml_accepts dd input' Hsync)
        as (dd1 & cp1 & Hret & Hsync1 & Hlog1).
      assert (Hcp : cp1 = Some (mkCheckpointer
                (checkpoints c
                 ++ if decide (Records input = []) then [] else [last_position input]))).
      { destruct (decide (Records input = [])) as [He|Hne].
        - unfold ProcessRecords in Hret. subst input'. cbn [Records] in Hret.
          rewrite He in Hret. simpl in Hret. injection Hret as _ <-.
          rewrite app_nil_r. by destruct c.
        - destruct (ProcessRecords_committed ml_accepts dd input' dd1 cp1 Hne Hret)
            as [-> _]. done. }
      rewrite Hret, Hcp.
      destruct (IH dd1 (mkCheckpointer
                (checkpoints c
                 ++ if decide (Records input = []) then [] else [last_position input]))
                Hsync1) as (dd' & c' & Hrun & Hsync' & Hcps & Hlog).
      exists dd', c'. split; [done|]. split; [done|]. split.
      + rewrite Hcps, batch_positions_cons. simpl. by rewrite app_assoc.
      + rewrite Hlog, Hlog1. subst input'. cbn [Records].
        rewrite fmap_cons. simpl. by rewrite omap_app, app_assoc. }
  destruct Hrun as (dd' & c' & Hrun & Hsync' & Hcps & Hlog).
  exists dd', c'. split; [done|]. split; [done|]. split; [done|]. split; [done|].
  split; [|split; [|done]].
  - cbn [Shutdown snd sd_ShutdownReason sd_Checkpointer]. unfold Checkpoint.
    by rewrite Hcps, app_assoc.
  - intros reason Hr. by destruct reason.
Qed.

End PipelineFurther2.

(** ** The handler and the service, further *)

Section HandlerFurther.
Context `{TimeFmt}.

(** X12. Where the handler opens the cursor.  With log and index in agreement,
    the starting offset is never negative and never beyond the log's latest
    offset: it is the latest offset (0 on an empty log) when [since] is not
    given or the index is empty, and an offset the index retains
    otherwise. *)
Theorem handleFunc_start_offset (now : Time) (ml0 : Memlog) (t2o0 : Timestamp2Offset)
  (lg : list LogMsg) (r : Request) (ts : option Time) (off : Z) :
  in_sync (mkProc ml0 t2o0 lg) →
  handleFunc now ml0 t2o0 r = Streaming ts off →
  0 ≤ off ≤ Z.max 0 (memlog_Range_latest ml0)
  ∧ (ts = None ∨ count t2o0 = 0 → off = Z.max 0 (memlog_Range_latest ml0))
  ∧ (ts ≠ None → count t2o0 ≠ 0 → is_Some (offset2Timestamp t2o0 !! off)).
Proof.
  intros [Hreach Hsync]. simpl in Hreach, Hsync.
  pose proof (reachable_Inv _ Hreach) as HI.
  unfold handleFunc. destruct (is_Flusher r); cbn [negb]; [|done].
  destruct (parse_since now _) as [|timestamp]; [done|].
  destruct (write_ok r); cbn [negb]; [|done].
  assert (Hclamp : (if memlog_Range_latest ml0 <? 0 then 0 else memlog_Range_latest ml0)
                   = Z.max 0 (memlog_Range_latest ml0)).
  { destruct (Z.ltb_spec (memlog_Range_latest ml0) 0); lia. }
  rewrite Hclamp.
  assert (Hlatest : -1 ≤ memlog_Range_latest ml0) by (unfold memlog_Range_latest; lia).
  destruct timestamp as [t|].
  - destruct (NearestOffset t2o0 t) as [o found] eqn:Hn. destruct found.
    + intros [= <- <-].
      pose proof (NearestOffset_retained _ _ _ HI Hn) as Hret.
      pose proof (proj1 (inv_dom _ HI o) Hret) as Hdom.
      pose proof (inv_nonneg _ HI) as Hnn.
      assert (Hc : count t2o0 ≠ 0).
      { intros Hc. unfold count in Hc.
        assert (offset2Timestamp t2o0 = ∅) as Hempty
          by (apply map_size_empty_iff; lia).
        rewrite Hempty, lookup_empty in Hret. by destruct Hret. }
      destruct Hsync as [?|Hl]; [done|]. fold (memlog_Range_latest ml0) in Hl.
      split; [lia|]. split; [|done]. intros [?|?]; done.
    + intros [= <- <-]. split; [lia|]. split; [done|]. intros _ Hc.
      destruct (NearestOffset_policy t2o0 t HI)
        as [[Hempty _]|[(o' & Hn' & _)|(o' & Hn' & _)]]; [|congruence..].
      destruct Hc. unfold count. by rewrite Hempty, map_size_empty.
  - intros [= <- <-]. split; [lia|]. split; [done|]. done.
Qed.

End HandlerFurther.

Section ServiceFurther.

Lemma stop_workers_spec rs st : stop_workers rs st = shutdown_all (workers rs) st.
Proof.
  unfold shutdown_all. revert st. induction rs as [|r rs IH]; intros st; [done|].
  cbn [stop_workers]. destruct (wrkr r) as [w|] eqn:Hw.
  - rewrite (workers_cons_Some _ _ _ Hw). simpl. apply IH.
  - rewrite (workers_cons_None _ _ Hw). apply IH.
Qed.

Lemma workers_Permutation rs rs' : rs ≡ₚ rs' → workers rs ≡ₚ workers rs'.
Proof.
  unfold workers. induction 1 as [|x l l' _ IH|x y l|l1 l2 l3 _ IH1 _ IH2]; csimpl.
  - done.
  - destruct (wrkr x); by rewrite IH.
  - destruct (wrkr x), (wrkr y); try done. apply perm_swap.
  - by etrans.
Qed.

(** X13. [Stop] shuts down every worker of the service, whatever the order in
    which the shutdowns take effect, and returns what the HTTP server's
    shutdown returned: afterwards none of these workers is running, each has
    been shut down once, and workers of other services are left alone. *)
Theorem Stop_stops_all (env : StopEnv) (s : Service) (order : list route) (st : Sys) :
  snd (Stop env s order st) = srv_Shutdown env
  ∧ running (fst (Stop env s order st))
    = filter (fun w => w ∉ workers order) (running st)
  ∧ shutdown_calls (fst (Stop env s order st)) = shutdown_calls st ++ workers order
  ∧ listen_calls (fst (Stop env s order st)) = listen_calls st
  ∧ (∀ order', order' ≡ₚ order →
       running (fst (Stop env s order' st)) = running (fst (Stop env s order st))).
Proof.
  unfold Stop. cbn [fst snd]. rewrite stop_workers_spec, shutdown_all_spec.
  cbn [running shutdown_calls listen_calls]. repeat split.
  intros order' Hperm. rewrite stop_workers_spec, shutdown_all_spec. simpl.
  apply list_filter_iff. intros w. by rewrite (workers_Permutation _ _ Hperm).
Qed.

(** X14. [Start], then [Stop]: however [Start] ended (a worker failed, the bind
    failed, or the server served and stopped) and in whatever order the
    workers are shut down, no worker is running after [Stop]. *)
Theorem Start_then_Stop (env : StartEnv) (senv : StopEnv) (s : Service)
  (order order' : list route) (sc : list Worker) (lc : list (string * Z)) :
  order' ≡ₚ order →
  running (fst (Stop senv (fst (fst (Start env s order (mkSys [] sc lc)))) order'
                  (snd (fst (Start env s order (mkSys [] sc lc)))))) = [].
Proof.
  intros Hperm. unfold Stop. cbn [fst]. rewrite stop_workers_spec, shutdown_all_spec.
  cbn [running].
  destruct (Start_cases env s order sc lc)
    as [(pre & r & w & post & err & _ & _ & _ & _ & ->)
       |[(_ & err & _ & ->)|(_ & bound & _ & ->)]]; cbn [fst snd running]; [done..|].
  apply elem_of_nil_inv. intros w [Hw Hin]%list_elem_of_filter. apply Hw.
  by rewrite (workers_Permutation _ _ Hperm).
Qed.

(** X15. [Start] returns nil only after serving: exactly when every worker
    started, the listener was bound and [Serve] ended with
    [http.ErrServerClosed].  The listener has then been published with the
    bound port, all workers of the routes are running and none has been shut
    down by [Start]. *)
Theorem Start_returns_nil (env : StartEnv) (s : Service) (order : list route)
  (sc : list Worker) (lc : list (string * Z)) :
  (snd (Start env s order (mkSys [] sc lc)) = None
   ↔ all_start env order
     ∧ (∃ bound, net_Listen env DefaultHost (port s) = inr bound)
     ∧ srv_Serve env = ErrServerClosed)
  ∧ (∀ s' st', Start env s order (mkSys [] sc lc) = (s', st', None) →
       ∃ bound, net_Listen env DefaultHost (port s) = inr bound
                ∧ s' = mkService (port s) (routes s) (Some bound)
                ∧ st' = mkSys (workers order) sc (lc ++ [(DefaultHost, port s)])).
Proof.
  destruct (Start_cases env s order sc lc)
    as [(pre & r & w & post & err & Ho & Hw & Hpre & Herr & HS)
       |[(Hall & err & Hl & HS)|(Hall & bound & Hl & HS)]]; rewrite HS; cbn [snd].
  - split; [|done]. split; [done|]. intros (Hall & _).
    assert (worker_Start env w = None) as Hn; [|congruence].
    eapply Hall; [|done]. rewrite Ho, elem_of_app, elem_of_cons. auto.
  - split; [|done]. split; [done|]. intros (_ & (bound & Hb) & _). congruence.
  - split.
    + destruct (srv_Serve env) eqn:Hs; split; try done.
      * intros _. split; [done|]. split; [by exists bound|done].
      * by intros (_ & _ & ?).
    + intros s' st'. destruct (srv_Serve env); [|done].
      intros [= <- <-]. by exists bound.
Qed.

Lemma new_routes_facts disable ros acc rs :
  new_routes disable ros acc = inr rs →
  (∀ ro, ro ∈ ros → 0 ≤ Capacity ro ∧ is_Some (rs !! Pattern ro))
  ∧ (∀ p r, rs !! p = Some r →
       acc !! p = Some r
       ∨ ∃ ro, ro ∈ ros ∧ Pattern ro = p
               ∧ r = mkRoute memlog_New
                       (mkT2O (effective_capacity ro) (-1) ∅ [])
                       (if negb disable then Some (mkWorker p) else None))
  ∧ (∀ p, is_Some (acc !! p) → is_Some (rs !! p)).
Proof.
  revert acc. induction ros as [|ro ros IH]; intros acc; cbn [new_routes].
  - intros [= <-]. split; [by intros ? ?%elem_of_nil|]. split; [by left|done].
  - destruct (Z.ltb_spec (Capacity ro) 0) as [|Hc]; [done|].
    unfold NewTimestamp2Offset.
    assert (Heff : (if Capacity ro =? 0 then DefaultCapacity else Capacity ro)
                   = effective_capacity ro) by done.
    rewrite Heff.
    assert (Hpos : 0 < effective_capacity ro).
    { unfold effective_capacity, DefaultCapacity.
      destruct (Z.eqb_spec (Capacity ro) 0); lia. }
    destruct (Z.leb_spec (effective_capacity ro) 0) as [|_]; [lia|].
    intros Hrs. destruct (IH _ Hrs) as (Hin & Hout & Hkeep).
    split; [|split].
    + intros ro' [->|Hro']%elem_of_cons; [|by apply Hin].
      split; [done|]. apply Hkeep. rewrite lookup_insert_eq. by eexists.
    + intros p r Hr. destruct (Hout p r Hr) as [Hacc|(ro' & Hro' & Hp & ->)].
      * destruct (decide (Pattern ro = p)) as [<-|Hne].
        -- rewrite lookup_insert_eq in Hacc. injection Hacc as <-.
           right. exists ro. split; [apply list_elem_of_here|]. done.
        -- rewrite lookup_insert_ne in Hacc by done. by left.
      * right. exists ro'. split; [by apply list_elem_of_further|done].
    + intros p Hp. apply Hkeep. destruct (decide (Pattern ro = p)) as [<-|Hne].
      * rewrite lookup_insert_eq. by eexists.
      * by rewrite lookup_insert_ne.
Qed.



(** X16. A service that [NewService] returns has one route for every configured
    pattern and no other; each route starts with an empty log and an empty
    index whose capacity is the configured one, or 100000 when none is
    configured; each route has a worker of its own unless the KCL is
    disabled; no listener is published yet; and no configured capacity was
    negative. *)
Theorem NewService_routes (options : ServiceOptions) (s : Service) :
  NewService options = inr s →
  l s = None
  ∧ (∀ ro, ro ∈ Routes options → 0 ≤ Capacity ro ∧ is_Some (routes s !! Pattern ro))
  ∧ (∀ p r, routes s !! p = Some r →
       ∃ ro, ro ∈ Routes options ∧ Pattern ro = p
             ∧ r_ml r = memlog_New
             ∧ r_t2o r = mkT2O (effective_capacity ro) (-1) ∅ []
             ∧ 0 < capacity (r_t2o r)
             ∧ wrkr r = (if disableKCL options then None else Some (mkWorker p))).
Proof.
  unfold NewService.
  destruct (new_routes _ _ ∅) as [e|rs] eqn:Hrs; [done|]. intros [= <-]. cbn [l routes].
  destruct (new_routes_facts _ _ _ _ Hrs) as (Hin & Hout & _).
  split; [done|]. split; [done|].
  intros p r Hr. destruct (Hout p r Hr) as [Hacc|(ro & Hro & Hp & ->)].
  { by rewrite lookup_empty in Hacc. }
  exists ro. cbn. repeat split; try done.
  - unfold effective_capacity, DefaultCapacity.
    destruct (Hin ro Hro) as [Hc _]. destruct (Z.eqb_spec (Capacity ro) 0); lia.
  - by destruct (disableKCL options).
Qed.


End ServiceFurther.

(** ** The in-memory checkpointer *)

Section CheckpointerFacts.
Import InMemoryCheckpointer.

(** X18. Save, then fetch.  [CheckpointSequence] never fails, and a
    [FetchCheckpoint] for the same shard id afterwards hands back the saved
    sequence number and lease timeout and names the checkpointer's own worker
    as the lease owner, whoever the shard was assigned to; the fetching
    shard keeps its own parent.  Other shards' progress is not touched. *)
Theorem checkpoint_round_trip (checkpointer : inMemoryCheckpointer)
  (shard shard2 : ShardStatus) :
  ID shard2 = ID shard →
  snd (CheckpointSequence checkpointer shard) = None
  ∧ FetchCheckpoint (fst (CheckpointSequence checkpointer shard)) shard2
    = (mkShard (ID shard2) (ParentShardId shard2) (Checkpoint_ shard)
         (workerID checkpointer) (LeaseTimeout shard), None)
  ∧ workerID (fst (CheckpointSequence checkpointer shard)) = workerID checkpointer
  ∧ (∀ other, ID other ≠ ID shard →
       FetchCheckpoint (fst (CheckpointSequence checkpointer shard)) other
       = FetchCheckpoint checkpointer other).
Proof.
  intros Hid. unfold CheckpointSequence, saveItem, FetchCheckpoint, getItem.
  cbn [fst snd m workerID]. split; [done|]. split; [|split; [done|]].
  - by rewrite <- Hid, lookup_insert_eq.
  - intros other Hne. by rewrite lookup_insert_ne.
Qed.

(** X19. Removing a lease, or just its owner, erases the shard's whole record:
    the two operations are the same, neither fails, and afterwards both
    [FetchCheckpoint] and [GetLeaseOwner] report that the sequence id is not
    found, also for a shard that had progress saved.  Removing twice is
    removing once, and other shards keep their records. *)
Theorem remove_erases_progress (checkpointer : inMemoryCheckpointer)
  (shardID : string) (shard : ShardStatus) :
  ID shard = shardID →
  RemoveLeaseOwner checkpointer shardID = RemoveLeaseInfo checkpointer shardID
  ∧ snd (RemoveLeaseInfo checkpointer shardID) = None
  ∧ FetchCheckpoint (fst (RemoveLeaseOwner checkpointer shardID)) shard
    = (shard, Some ErrSequenceIDNotFound)
  ∧ GetLeaseOwner (fst (RemoveLeaseOwner checkpointer shardID)) shardID
    = (""%string, Some ErrSequenceIDNotFound)
  ∧ RemoveLeaseInfo (fst (RemoveLeaseInfo checkpointer shardID)) shardID
    = RemoveLeaseInfo checkpointer shardID
  ∧ (∀ other, other ≠ shardID →
       m (fst (RemoveLeaseOwner checkpointer shardID)) !! other
       = m checkpointer !! other).
Proof.
  intros Hid. unfold RemoveLeaseOwner, RemoveLeaseInfo, removeItem, FetchCheckpoint,
    GetLeaseOwner, getItem. cbn [fst snd m workerID].
  rewrite Hid, lookup_delete_eq. repeat split.
  - by rewrite delete_delete_eq.
  - intros other Hne. by rewrite lookup_delete_ne.
Qed.

(** X20. [GetLeaseOwner] answers from the store alone: it names the
    checkpointer's own worker exactly for the shards that have a record, and
    reports a missing sequence id for all others.  A lease granted by
    [GetLease] changes the shard's status only, not the store, so on a new
    checkpointer the owner of a freshly leased shard is still unknown. *)
Theorem GetLeaseOwner_from_store (checkpointer : inMemoryCheckpointer)
  (shardID : string) (shard : ShardStatus) (newLeaseTimeout : Time)
  (newAssignTo : string) :
  (GetLeaseOwner checkpointer shardID = (workerID checkpointer, None)
   ↔ is_Some (m checkpointer !! shardID))
  ∧ (GetLeaseOwner checkpointer shardID = (""%string, Some ErrSequenceIDNotFound)
     ↔ m checkpointer !! shardID = None)
  ∧ GetLease newLeaseTimeout checkpointer shard newAssignTo
    = (checkpointer,
       mkShard (ID shard) (ParentShardId shard) (Checkpoint_ shard)
         newAssignTo newLeaseTimeout, None)
  ∧ GetLeaseOwner
      (fst (fst (GetLease newLeaseTimeout
                   (NewInMemoryCheckpointer (workerID checkpointer)) shard newAssignTo)))
      (ID shard)
    = (""%string, Some ErrSequenceIDNotFound).
Proof.
  unfold GetLeaseOwner, getItem, GetLease, NewInMemoryCheckpointer. cbn [fst snd m].
  rewrite lookup_empty.
  destruct (m checkpointer !! shardID) as [item|]; repeat split;
    first [done | by eexists | by intros [? ?]].
Qed.

(** X21. [ClaimShard] never loses progress and never fails.  If the shard has a
    record, the shard takes over its sequence number and lease timeout, is
    assigned to the checkpointer's own worker (the claimant named in the
    call is not used), and the record keeps both, taking the shard's parent;
    if it has none, the shard is left as it is (its owner included) and its
    own values are saved.  Claiming again leaves the store as it is and
    assigns the shard to the checkpointer's worker. *)
Theorem ClaimShard_keeps_progress (checkpointer : inMemoryCheckpointer)
  (shard : ShardStatus) (claimant : string) :
  ∃ checkpointer' shard',
    ClaimShard checkpointer shard claimant = (checkpointer', shard', None)
    ∧ workerID checkpointer' = workerID checkpointer
    ∧ match m checkpointer !! ID shard with
      | Some item =>
          shard' = mkShard (ID shard) (ParentShardId shard) (sequenceNumber item)
                     (workerID checkpointer) (leaseTimeout item)
          ∧ m checkpointer' !! ID shard
            = Some (mkItem (sequenceNumber item) (leaseTimeout item) (ParentShardId shard))
      | None =>
          shard' = shard
          ∧ m checkpointer' !! ID shard
            = Some (mkItem (Checkpoint_ shard) (LeaseTimeout shard) (ParentShardId shard))
      end
    ∧ (∀ other, other ≠ ID shard → m checkpointer' !! other = m checkpointer !! other)
    ∧ (∀ claimant', ClaimShard checkpointer' shard' claimant'
                    = (checkpointer', SetLeaseOwner shard' (workerID checkpointer), None)).
Proof.
  unfold ClaimShard, FetchCheckpoint, getItem, saveItem.
  destruct (m checkpointer !! ID shard) as [item|] eqn:Hitem;
    cbv beta iota zeta;
    (eexists _, _; split; [reflexivity|]);
    unfold set_LeaseTimeout, SetLeaseOwner, SetCheckpoint, GetLeaseTimeout;
    cbn [m workerID ID ParentShardId Checkpoint_ AssignedTo LeaseTimeout
         sequenceNumber leaseTimeout parentShardId];
    rewrite !lookup_insert_eq;
    (split; [done|]); (split; [by destruct shard|]);
    (split; [intros other Hne; by rewrite lookup_insert_ne|]);
    intros _; cbv beta iota zeta;
    cbn [m workerID ID ParentShardId Checkpoint_ AssignedTo LeaseTimeout
         sequenceNumber leaseTimeout parentShardId];
    rewrite insert_insert_eq; by destruct shard.
Qed.

Lemma active_of_cons owner shard shards :
  active_of owner (shard :: shards)
  = if decide (Checkpoint_ shard ≠ ShardEnd ∧ AssignedTo shard = owner)
    then shard :: active_of owner shards else active_of owner shards.
Proof.
  unfold active_of. destruct (decide _) as [Hc|Hc].
  - by rewrite filter_cons_True.
  - by rewrite filter_cons_False.
Qed.

Lemma list_active_ok shards acc ws :
  list_active shards acc = inr ws →
  ∀ owner,
    ws !! owner
    = match acc !! owner, active_of owner shards with
      | None, [] => None
      | None, found => Some found
      | Some w, found => Some (w ++ found)
      end.
Proof.
  revert acc. induction shards as [|shard shards IH]; intros acc; cbn [list_active].
  - intros [= <-] owner. unfold active_of. simpl.
    destruct (acc !! owner); [by rewrite app_nil_r|done].
  - unfold GetCheckpoint, shard_GetLeaseOwner.
    destruct (decide (Checkpoint_ shard = ShardEnd)) as [Hend|Hend].
    { intros Hws owner. rewrite active_of_cons, decide_False by tauto. by apply IH. }
    destruct (decide (AssignedTo shard = ""%string)) as [|Hown]; [done|].
    intros Hws owner. rewrite active_of_cons.
    destruct (acc !! AssignedTo shard) as [w|] eqn:Hacc;
      rewrite (IH _ Hws owner);
      (destruct (decide (AssignedTo shard = owner)) as [<-|Hne];
       [ rewrite lookup_insert_eq, decide_True by done; rewrite ?Hacc
       | rewrite lookup_insert_ne by done; rewrite decide_False by tauto; done ]).
    + by rewrite <- app_assoc.
    + done.
Qed.

Lemma list_active_error shards acc :
  (∃ e, list_active shards acc = inl e)
  ↔ ∃ shard, shard ∈ shards ∧ Checkpoint_ shard ≠ ShardEnd
             ∧ AssignedTo shard = ""%string.
Proof.
  revert acc. induction shards as [|shard shards IH]; intros acc; cbn [list_active].
  - split; [by intros [? ?]|]. by intros (? & ?%elem_of_nil & _).
  - unfold GetCheckpoint, shard_GetLeaseOwner.
    destruct (decide (Checkpoint_ shard = ShardEnd)) as [Hend|Hend].
    { rewrite IH. split.
      - intros (x & Hx & Hc). exists x. split; [by apply list_elem_of_further|done].
      - intros (x & [->|Hx]%elem_of_cons & Hc & Ho); [done|]. by exists x. }
    destruct (decide (AssignedTo shard = ""%string)) as [Hown|Hown].
    { split; [|by eexists]. intros _. exists shard.
      split; [apply list_elem_of_here|done]. }
    destruct (acc !! AssignedTo shard); rewrite IH; (split;
      [ intros (x & Hx & Hc); exists x; split; [by apply list_elem_of_further|done]
      | intros (x & [->|Hx]%elem_of_cons & Hc & Ho); [done|]; by exists x ]).
Qed.

Lemma list_active_error_kind shards acc e :
  list_active shards acc = inl e → e = ErrShardNotAssigned.
Proof.
  revert acc. induction shards as [|shard shards IH]; intros acc; cbn [list_active];
    [done|].
  destruct (decide _); [apply IH|]. destruct (decide _); [by intros [= <-]|].
  destruct (acc !! _); apply IH.
Qed.

(** X22. [ListActiveWorkers] fails, with "shard not assigned", exactly when some
    shard that has not reached its end has no lease owner.  Otherwise it
    lists, under each owner, the owner's shards that have not reached their
    end, in the order it met them; owners without such a shard do not appear,
    and shards at their end are left out. *)
Theorem ListActiveWorkers_groups (shardStatus : list ShardStatus) :
  (ListActiveWorkers shardStatus = inl ErrShardNotAssigned
   ↔ ∃ shard, shard ∈ shardStatus ∧ Checkpoint_ shard ≠ ShardEnd
              ∧ AssignedTo shard = ""%string)
  ∧ ListActiveWorkers shardStatus ≠ inl ErrSequenceIDNotFound
  ∧ (∀ workers, ListActiveWorkers shardStatus = inr workers →
       ∀ owner,
         workers !! owner
         = if decide (active_of owner shardStatus = []) then None
           else Some (active_of owner shardStatus)).
Proof.
  unfold ListActiveWorkers. split; [|split].
  - rewrite <- (list_active_error shardStatus ∅). split; [by eexists|].
    intros [e He]. by rewrite He, (list_active_error_kind _ _ _ He).
  - intros He. by apply list_active_error_kind in He.
  - intros ws Hws owner. rewrite (list_active_ok _ _ _ Hws owner), lookup_empty.
    by destruct (active_of owner shardStatus).
Qed.

End CheckpointerFacts.

(** ** The routes of the command line *)

Section MainFacts.
Import Main.
Context `{TimeFmt}.

(** X23. The loop over the routes of the command line stops at the first route
    with an empty path or an empty stream and names its index, the path being
    checked first; otherwise it hands every route on, in order, under its
    path, with its capacity and its stream. *)
Theorem build_routes_result (unset : InitialPosition) (now : nat → Time) (i : nat)
  (parsedRoutes : list RouteOptionsCLI) :
  match build_routes unset now i parsedRoutes with
  | inl e =>
      ∃ pre r post,
        parsedRoutes = pre ++ r :: post
        ∧ Forall (fun x => Path x ≠ ""%string ∧ Stream x ≠ ""%string) pre
        ∧ ((Path r = ""%string ∧ e = ErrEmptyPath (i + length pre))
           ∨ (Path r ≠ ""%string ∧ Stream r = ""%string
              ∧ e = ErrEmptyStream (i + length pre)))
  | inr routes =>
      Forall (fun x => Path x ≠ ""%string ∧ Stream x ≠ ""%string) parsedRoutes
      ∧ routes
        = imap (fun k x =>
                  (mkRouteOptions (Path x) (Capacity x),
                   (Stream x, initial_position unset (now (i + k)%nat) (Start x))))
            parsedRoutes
  end.
Proof.
  revert i. induction parsedRoutes as [|x rest IH]; intros i; cbn [build_routes].
  - split; [constructor|done].
  - destruct (decide (Path x = ""%string)) as [Hp|Hp].
    { rewrite bool_decide_eq_true_2 by done. exists [], x, rest.
      split; [done|]. split; [constructor|]. left. simpl. by rewrite Nat.add_0_r. }
    rewrite bool_decide_eq_false_2 by done.
    destruct (decide (Stream x = ""%string)) as [Hs|Hs].
    { rewrite bool_decide_eq_true_2 by done. exists [], x, rest.
      split; [done|]. split; [constructor|]. right. simpl. by rewrite Nat.add_0_r. }
    rewrite bool_decide_eq_false_2 by done.
    specialize (IH (S i)). destruct (build_routes unset now (S i) rest) as [e|routes].
    + destruct IH as (pre & r & post & -> & Hpre & He).
      exists (x :: pre), r, post. split; [done|]. split; [by constructor|].
      simpl. by replace (i + S (length pre))%nat with (S i + length pre)%nat by lia.
    + destruct IH as [Hall ->]. split; [by constructor|].
      simpl. rewrite Nat.add_0_r. f_equal. apply imap_ext. intros k y _. simpl.
      by replace (i + S k)%nat with (S i + k)%nat by lia.
Qed.

End MainFacts.

(** ** Instances *)

Lemma NearestOffset_finds_retained_witness :
  ∃ o', NearestOffset (test_index [(0, 100); (1, 500); (2, 250)]) 500 = (o', true)
        ∧ retains (test_index [(0, 100); (1, 500); (2, 250)]) o' 500 ∧ o' ≤ 1.
Proof.
  apply (NearestOffset_finds_retained (test_index [(0, 100); (1, 500); (2, 250)]) 1 500).
  - apply test_index_reachable. vm_compute. reflexivity.
  - vm_compute. reflexivity.
Defined.

Lemma Add_then_NearestOffset_witness :
  ∃ o', NearestOffset (test_index [(0, 100); (1, 500)]) 500 = (o', true)
        ∧ retains (test_index [(0, 100); (1, 500)]) o' 500 ∧ o' ≤ 1.
Proof.
  apply (Add_then_NearestOffset (test_index [(0, 100)]) 1 500
           (test_index [(0, 100); (1, 500)])).
  - apply test_index_reachable. vm_compute. reflexivity.
  - vm_compute. reflexivity.
Defined.

Lemma NearestOffset_monotone_witness : 250 < 500 ∨ (250 = 500 ∧ 2 ≤ 1).
Proof.
  apply (NearestOffset_monotone (test_index [(0, 100); (1, 500); (2, 250)]) 0 300
           2 1 250 500).
  - apply test_index_reachable. vm_compute. reflexivity.
  - lia.
  - vm_compute. reflexivity.
  - vm_compute. reflexivity.
  - vm_compute. reflexivity.
  - vm_compute. reflexivity.
Defined.

Lemma NearestOffset_found_iff_witness :
  snd (NearestOffset (test_index [(0, 100)]) 0) = true
  ↔ offset2Timestamp (test_index [(0, 100)]) ≠ ∅.
Proof.
  apply (NearestOffset_found_iff (test_index [(0, 100)]) 0).
  apply test_index_reachable. vm_compute. reflexivity.
Defined.

Lemma Add_reachable_accepts_witness :
  snd (Add (test_index [(0, 100)]) 1 500) = None
  ↔ 0 ≤ 1 ∧ (count (test_index [(0, 100)]) = 0
             ∨ 1 = lastOffset (test_index [(0, 100)]) + 1).
Proof.
  apply (Add_reachable_accepts (test_index [(0, 100)]) 1 500).
  apply test_index_reachable. vm_compute. reflexivity.
Defined.

Lemma Add_keeps_entries_witness :
  retains (test_index [(0, 100); (1, 500); (2, 250)]) 1 500
  ∧ capacity (test_index [(0, 100); (1, 500); (2, 250)])
    = capacity (test_index [(0, 100); (1, 500)]).
Proof.
  destruct (Add_keeps_entries (test_index [(0, 100); (1, 500)]) 2 250
              (test_index [(0, 100); (1, 500); (2, 250)]) 1 500) as [Hiff Hcap].
  - apply test_index_reachable. vm_compute. reflexivity.
  - vm_compute. reflexivity.
  - split; [|exact Hcap]. apply Hiff. right. split.
    + vm_compute. reflexivity.
    + vm_compute. discriminate.
Defined.

Lemma batches_compose_witness :
  ∃ dd1 cp1 dd2 cp2 dd12 cp12,
    @ProcessRecords test_JSON test_TimeFmt accept_all test_processor test_batch
    = Returned dd1 cp1
    ∧ @ProcessRecords test_JSON test_TimeFmt accept_all dd1 test_batch = Returned dd2 cp2
    ∧ @ProcessRecords test_JSON test_TimeFmt accept_all test_processor double_batch
      = Returned dd12 cp12
    ∧ ml dd2 = ml dd12 ∧ t2o dd2 = t2o dd12.
Proof.
  apply (@batches_compose test_JSON test_TimeFmt accept_all test_processor
           test_batch test_batch double_batch).
  - split; [by apply (reach_new 100)|left; reflexivity].
  - reflexivity.
Defined.

Lemma index_follows_log_witness :
  ∃ dd' cp',
    @ProcessRecords test_JSON test_TimeFmt accept_all test_processor test_batch
    = Returned dd' cp'
    ∧ retains (t2o dd') 1 1
    ∧ ml_entries (ml dd') !! 1%nat = Some (event "{event:2,good:true}").
Proof.
  destruct (@index_follows_log test_JSON test_TimeFmt accept_all test_processor test_batch)
    as (dd' & cp' & Hret & Hall & Hentries).
  { split; [by apply (reach_new 100)|left; reflexivity]. }
  exists dd', cp'. split; [exact Hret|].
  destruct (Hentries 1%nat (event "{event:2,good:true}") 1) as [Hread Hwin].
  { vm_compute. reflexivity. }
  split; [|exact Hread].
  apply Hwin. pose proof Hret as Hv. vm_compute in Hv. injection Hv as <- <-.
  vm_compute. reflexivity.
Defined.

Lemma panic_leaves_log_ahead_witness :
  last [WarnUnparseableJSON; WarnMissingTime; WarnMissingDetail;
        ErrorIncorrectUsage (ErrLastOffset 0 0)]
  = Some (ErrorIncorrectUsage (ErrLastOffset 0 0))
  ∧ ¬ in_sync out_of_step_processor.
Proof.
  destruct (@panic_leaves_log_ahead test_JSON test_TimeFmt accept_all
              out_of_step_processor test_batch
              (mkProc (mkLog [event "{event:1,good:true}"]) (test_index [(0, 100)])
                 [WarnUnparseableJSON; WarnMissingTime; WarnMissingDetail;
                  ErrorIncorrectUsage (ErrLastOffset 0 0)])
              None (ErrLastOffset 0 0))
    as (_ & Hout & Hlast & _).
  { vm_compute. reflexivity. }
  split; [exact Hlast|exact Hout].
Defined.

Lemma processor_life_witness :
  ∃ dd' c',
    @run_batches test_JSON test_TimeFmt accept_all test_processor (mkCheckpointer [])
      [test_batch; empty_batch; kcl_batch]
    = Returned dd' (Some c')
    ∧ checkpoints c'
      = [Some "49590338271490256608559692538361571095921575989136588898"%string;
         Some "49590338271490256608559692538361571095921575989136588898"%string]
    ∧ length (ml_entries (ml dd')) = 4%nat.
Proof.
  destruct (@processor_life test_JSON test_TimeFmt accept_all test_processor
              (mkCheckpointer []) [test_batch; empty_batch; kcl_batch])
    as (dd' & c' & Hrun & _ & Hcps & Hlog & _).
  { split; [by apply (reach_new 100)|left; reflexivity]. }
  exists dd', c'. split; [exact Hrun|]. split; [rewrite Hcps; vm_compute; reflexivity|].
  rewrite Hlog. vm_compute. reflexivity.
Defined.

Lemma handleFunc_start_offset_witness :
  0 ≤ 0 ≤ Z.max 0 (memlog_Range_latest two_entry_log)
  ∧ is_Some (offset2Timestamp (test_index [(0, 100); (1, 500)]) !! 0).
Proof.
  destruct (@handleFunc_start_offset test_TimeFmt 7200000000000 two_entry_log
              (test_index [(0, 100); (1, 500)]) []
              (since_request "1970-01-01T00:00:00.001Z") (Some 1) 0)
    as (Hrange & _ & Hret).
  - split; [apply test_index_reachable; vm_compute; reflexivity|right; reflexivity].
  - vm_compute. reflexivity.
  - split; [exact Hrange|]. apply Hret; [discriminate|vm_compute; discriminate].
Defined.

Lemma Start_then_Stop_witness :
  running (fst (Stop stop_ok
             (fst (fst (Start serve_fails (service_of (two_routes (-1)))
                          (range_order (service_of (two_routes (-1)))) idle)))
             (reverse (range_order (service_of (two_routes (-1)))))
             (snd (fst (Start serve_fails (service_of (two_routes (-1)))
                          (range_order (service_of (two_routes (-1)))) idle)))))
  = [].
Proof.
  apply (Start_then_Stop serve_fails stop_ok (service_of (two_routes (-1)))
           (range_order (service_of (two_routes (-1))))
           (reverse (range_order (service_of (two_routes (-1))))) [] []).
  apply reverse_Permutation.
Defined.

Lemma NewService_routes_witness :
  l (service_of (two_routes (-1))) = None
  ∧ 0 ≤ Capacity (mkRouteOptions "/bar" 0)
  ∧ is_Some (routes (service_of (two_routes (-1))) !! Pattern (mkRouteOptions "/bar" 0)).
Proof.
  destruct (NewService_routes (two_routes (-1)) (service_of (two_routes (-1))) eq_refl)
    as (Hl & Hall & _).
  split; [exact Hl|]. apply Hall.
  apply elem_of_cons. right. apply elem_of_cons. left. reflexivity.
Defined.


Lemma checkpoint_round_trip_witness :
  InMemoryCheckpointer.FetchCheckpoint
    (fst (InMemoryCheckpointer.CheckpointSequence sample_checkpointer shard_with_progress))
    shard_unread
  = (InMemoryCheckpointer.mkShard "shardId-000000000000" "shardId-parent"
       "49590338271490256608" "worker-1" 1000, None).
Proof.
  apply (checkpoint_round_trip sample_checkpointer shard_with_progress shard_unread).
  reflexivity.
Defined.

Lemma remove_erases_progress_witness :
  InMemoryCheckpointer.FetchCheckpoint
    (fst (InMemoryCheckpointer.RemoveLeaseOwner
            (fst (InMemoryCheckpointer.CheckpointSequence sample_checkpointer
                    shard_with_progress))
            "shardId-000000000000"))
    shard_unread
  = (shard_unread, Some InMemoryCheckpointer.ErrSequenceIDNotFound).
Proof.
  apply (remove_erases_progress
           (fst (InMemoryCheckpointer.CheckpointSequence sample_checkpointer
                   shard_with_progress))
           "shardId-000000000000" shard_unread).
  reflexivity.
Defined.
